(** * VaultGuard: the access controller of the passcode vault

    A shallow embedding of the React component [App] (the keypad state
    machine, the capture policy, the persistence of passcode, settings and
    intruder logs) and of the analysis service [analyzeIntruderImage].

    Layout:
    - [JSON]: the platform's [JSON.parse] and [JSON.stringify], on the
      fragment the component stores;
    - the data model of [types.ts] and its JSON reading;
    - the component: state, closures, effects, [handlePinSubmit],
      initialization, settings, the event loop;
    - the analysis service;
    - the camera logic on its own ([Camera]);
    - the theorems: first those on the submission handler, startup and
      the invariants of the event loop, then round trips through the
      store, the keypad, runs of attempts, the alert, the analysis and
      the camera. *)

From Stdlib Require Import ZArith String Ascii List Bool Lia DecimalString.
From Stdlib Require Import DecimalFacts DecimalPos.
From stdpp Require Import gmap strings.
Import ListNotations.
Open Scope Z_scope.

(** ** JSON, as the browser gives it to the component *)

Module JSON.

Set Warnings "-register-all".

(** A parsed JSON text. Numbers written as plain integers are kept as
    integers (of any size: the rounding of integers beyond 2^53 is not
    modelled); a number written with a fraction or an exponent is kept as
    its literal, the model does no floating point. Strings are byte
    strings. *)
Inductive JsValue : Type :=
| JNull
| JBool (b : bool)
| JNum (n : Z)
| JReal (lit : string)
| JStr (s : string)
| JArr (vs : list JsValue)
| JObj (ms : list (string * JsValue)).

Inductive Token : Type :=
| TLBrace | TRBrace | TLBracket | TRBracket | TColon | TComma
| TString (s : string)
| TNumber (lit : string)
| TWord (w : string).

Definition code (c : ascii) : N := N_of_ascii c.
Definition chr (n : N) : ascii := ascii_of_N n.

Definition dquote : ascii := chr 34.
Definition backslash : ascii := chr 92.

Definition is_digit (c : ascii) : bool := (48 <=? code c)%N && (code c <=? 57)%N.
Definition is_lower (c : ascii) : bool := (97 <=? code c)%N && (code c <=? 122)%N.
Definition is_space (c : ascii) : bool :=
  (code c =? 32)%N || (code c =? 9)%N || (code c =? 10)%N || (code c =? 13)%N.
Definition is_numchar (c : ascii) : bool :=
  is_digit c || (code c =? 45)%N || (code c =? 43)%N || (code c =? 46)%N
  || (code c =? 101)%N || (code c =? 69)%N.

Definition hex_value (c : ascii) : option N :=
  let n := code c in
  if is_digit c then Some (n - 48)%N
  else if (97 <=? n)%N && (n <=? 102)%N then Some (n - 87)%N
  else if (65 <=? n)%N && (n <=? 70)%N then Some (n - 55)%N
  else None.

(** The character an escape letter stands for ([\n], [\t], ...). *)
Definition unescape (c : ascii) : option ascii :=
  let n := code c in
  if (n =? 34)%N then Some dquote
  else if (n =? 92)%N then Some backslash
  else if (n =? 47)%N then Some (chr 47)
  else if (n =? 98)%N then Some (chr 8)
  else if (n =? 102)%N then Some (chr 12)
  else if (n =? 110)%N then Some (chr 10)
  else if (n =? 114)%N then Some (chr 13)
  else if (n =? 116)%N then Some (chr 9)
  else None.

(** Strings are byte strings: a [\uXXXX] escape is stored as the UTF-8
    bytes of its code unit. *)
Definition utf8 (n : N) : list ascii :=
  if (n <? 128)%N then [chr n]
  else if (n <? 2048)%N then
    [chr (192 + n / 64); chr (128 + n mod 64)]
  else
    [chr (224 + n / 4096); chr (128 + (n / 64) mod 64); chr (128 + n mod 64)].

Definition hex4 (hs : list N) : N :=
  fold_left (fun a h => (16 * a + h)%N) hs 0%N.

Inductive LexMode : Type :=
| Between
| InString (acc : list ascii)
| InEscape (acc : list ascii)
| InUnicode (acc : list ascii) (hex : list N)
| InNumber (acc : list ascii)
| InWord (acc : list ascii).

(** Accumulators hold the characters read so far, last one first. *)
Definition text (acc : list ascii) : string := string_of_list_ascii (rev acc).

Definition lex_between (c : ascii) (out : list Token) : option (LexMode * list Token) :=
  let n := code c in
  if is_space c then Some (Between, out)
  else if (n =? 123)%N then Some (Between, TLBrace :: out)
  else if (n =? 125)%N then Some (Between, TRBrace :: out)
  else if (n =? 91)%N then Some (Between, TLBracket :: out)
  else if (n =? 93)%N then Some (Between, TRBracket :: out)
  else if (n =? 58)%N then Some (Between, TColon :: out)
  else if (n =? 44)%N then Some (Between, TComma :: out)
  else if (n =? 34)%N then Some (InString [], out)
  else if is_digit c || (n =? 45)%N then Some (InNumber [c], out)
  else if is_lower c then Some (InWord [c], out)
  else None.

Definition lex_char (m : LexMode) (c : ascii) (out : list Token)
  : option (LexMode * list Token) :=
  match m with
  | Between => lex_between c out
  | InString acc =>
      if (code c =? 34)%N then Some (Between, TString (text acc) :: out)
      else if (code c =? 92)%N then Some (InEscape acc, out)
      else if (code c <? 32)%N then None
      else Some (InString (c :: acc), out)
  | InEscape acc =>
      match unescape c with
      | Some d => Some (InString (d :: acc), out)
      | None => if (code c =? 117)%N then Some (InUnicode acc [], out) else None
      end
  | InUnicode acc hex =>
      match hex_value c with
      | None => None
      | Some h =>
          let hex' := hex ++ [h] in
          if (length hex' =? 4)%nat
          then Some (InString (rev (utf8 (hex4 hex')) ++ acc), out)
          else Some (InUnicode acc hex', out)
      end
  | InNumber acc =>
      if is_numchar c then Some (InNumber (c :: acc), out)
      else lex_between c (TNumber (text acc) :: out)
  | InWord acc =>
      if is_lower c then Some (InWord (c :: acc), out)
      else lex_between c (TWord (text acc) :: out)
  end.

Fixpoint lex (m : LexMode) (out : list Token) (cs : list ascii) : option (list Token) :=
  match cs with
  | [] =>
      match m with
      | Between => Some (rev out)
      | InNumber acc => Some (rev (TNumber (text acc) :: out))
      | InWord acc => Some (rev (TWord (text acc) :: out))
      | _ => None
      end
  | c :: cs' =>
      match lex_char m c out with
      | Some (m', out') => lex m' out' cs'
      | None => None
      end
  end.

(** *** Number and word literals *)

Fixpoint span_digits (cs : list ascii) : list ascii * list ascii :=
  match cs with
  | c :: cs' =>
      if is_digit c then let (ds, r) := span_digits cs' in (c :: ds, r)
      else ([], cs)
  | [] => ([], [])
  end.

Definition digits_value (ds : list ascii) : Z :=
  fold_left (fun a d => 10 * a + Z.of_N (code d - 48)) ds 0.

(** [0] alone, or digits that do not start with [0]. *)
Definition int_part_ok (ds : list ascii) : bool :=
  match ds with
  | [] => false
  | [_] => true
  | d :: _ => negb (code d =? 48)%N
  end.

Definition exponent_ok (cs : list ascii) : bool :=
  match cs with
  | [] => true
  | e :: r =>
      if (code e =? 101)%N || (code e =? 69)%N then
        let r' := match r with
                  | s :: r1 => if (code s =? 43)%N || (code s =? 45)%N then r1 else r
                  | [] => r
                  end in
        match span_digits r' with
        | (_ :: _, []) => true
        | _ => false
        end
      else false
  end.

Definition fraction_ok (cs : list ascii) : bool :=
  match cs with
  | d :: r =>
      if (code d =? 46)%N then
        match span_digits r with
        | (_ :: _, r') => exponent_ok r'
        | _ => false
        end
      else exponent_ok cs
  | [] => true
  end.

Definition number_value (lit : string) : option JsValue :=
  let cs := list_ascii_of_string lit in
  let (neg, body) :=
    match cs with
    | s :: r => if (code s =? 45)%N then (true, r) else (false, cs)
    | [] => (false, cs)
    end in
  let (ds, rest) := span_digits body in
  if int_part_ok ds then
    match rest with
    | [] => Some (JNum (if neg then - digits_value ds else digits_value ds))
    | _ => if fraction_ok rest then Some (JReal lit) else None
    end
  else None.

Definition word_value (w : string) : option JsValue :=
  if String.eqb w "true" then Some (JBool true)
  else if String.eqb w "false" then Some (JBool false)
  else if String.eqb w "null" then Some JNull
  else None.

(** *** The grammar, over tokens, with an explicit stack of open containers *)

Inductive Frame : Type :=
| FArr (done : list JsValue)
| FObj (done : list (string * JsValue)) (key : option string).

Inductive Expect : Type :=
| EValue          (* at the top, after a colon, after a comma of an array *)
| EValueOrClose   (* just after an opening bracket *)
| EKeyOrClose     (* just after an opening brace *)
| EKey            (* after a comma of an object *)
| EColon          (* after a key *)
| ESep            (* after a value inside a container *)
| EEnd (v : JsValue).

(** Hand a finished value to the innermost open container. *)
Definition deliver (v : JsValue) (stack : list Frame) : option (list Frame * Expect) :=
  match stack with
  | [] => Some ([], EEnd v)
  | FArr vs :: st => Some (FArr (v :: vs) :: st, ESep)
  | FObj ms (Some k) :: st => Some (FObj ((k, v) :: ms) None :: st, ESep)
  | FObj _ None :: _ => None
  end.

Definition wants_value (e : Expect) : bool :=
  match e with
  | EValue | EValueOrClose => true
  | _ => false
  end.

Definition parse_token (stack : list Frame) (e : Expect) (t : Token)
  : option (list Frame * Expect) :=
  match t with
  | TNumber lit =>
      if wants_value e then
        match number_value lit with Some v => deliver v stack | None => None end
      else None
  | TWord w =>
      if wants_value e then
        match word_value w with Some v => deliver v stack | None => None end
      else None
  | TString s =>
      match e, stack with
      | EValue, _ | EValueOrClose, _ => deliver (JStr s) stack
      | EKeyOrClose, FObj ms None :: st
      | EKey, FObj ms None :: st => Some (FObj ms (Some s) :: st, EColon)
      | _, _ => None
      end
  | TLBracket => if wants_value e then Some (FArr [] :: stack, EValueOrClose) else None
  | TLBrace => if wants_value e then Some (FObj [] None :: stack, EKeyOrClose) else None
  | TRBracket =>
      match e, stack with
      | EValueOrClose, FArr vs :: st
      | ESep, FArr vs :: st => deliver (JArr (rev vs)) st
      | _, _ => None
      end
  | TRBrace =>
      match e, stack with
      | EKeyOrClose, FObj ms None :: st
      | ESep, FObj ms None :: st => deliver (JObj (rev ms)) st
      | _, _ => None
      end
  | TComma =>
      match e, stack with
      | ESep, FArr _ :: _ => Some (stack, EValue)
      | ESep, FObj _ _ :: _ => Some (stack, EKey)
      | _, _ => None
      end
  | TColon =>
      match e with
      | EColon => Some (stack, EValue)
      | _ => None
      end
  end.

Fixpoint parse_tokens (stack : list Frame) (e : Expect) (ts : list Token) : option JsValue :=
  match ts with
  | [] =>
      match e, stack with
      | EEnd v, [] => Some v
      | _, _ => None
      end
  | t :: ts' =>
      match parse_token stack e t with
      | Some (stack', e') => parse_tokens stack' e' ts'
      | None => None
      end
  end.

(** [JSON.parse]: [None] is the thrown [SyntaxError]. *)
Definition parse (s : string) : option JsValue :=
  match lex Between [] (list_ascii_of_string s) with
  | Some ts => parse_tokens [] EValue ts
  | None => None
  end.

(** *** [JSON.stringify] *)

Definition hex_digit (n : N) : ascii :=
  if (n <? 10)%N then chr (48 + n) else chr (87 + n).

Definition escape_char (c : ascii) : list ascii :=
  let n := code c in
  if (n =? 34)%N then [backslash; dquote]
  else if (n =? 92)%N then [backslash; backslash]
  else if (n =? 8)%N then [backslash; chr 98]
  else if (n =? 12)%N then [backslash; chr 102]
  else if (n =? 10)%N then [backslash; chr 110]
  else if (n =? 13)%N then [backslash; chr 114]
  else if (n =? 9)%N then [backslash; chr 116]
  else if (n <? 32)%N then
    [backslash; chr 117; chr 48; chr 48; hex_digit (n / 16); hex_digit (n mod 16)]
  else [c].

Definition quote (s : string) : string :=
  string_of_list_ascii
    (dquote :: flat_map escape_char (list_ascii_of_string s) ++ [dquote]).

Definition number_text (n : Z) : string := NilZero.string_of_int (Z.to_int n).

Fixpoint join (sep : string) (ss : list string) : string :=
  match ss with
  | [] => ""
  | [s] => s
  | s :: ss' => s +:+ sep +:+ join sep ss'
  end.

Fixpoint stringify (v : JsValue) : string :=
  match v with
  | JNull => "null"
  | JBool true => "true"
  | JBool false => "false"
  | JNum n => number_text n
  | JReal lit => lit
  | JStr s => quote s
  | JArr vs => "[" +:+ join "," (map stringify vs) +:+ "]"
  | JObj ms =>
      "{" +:+ join "," (map (fun m => quote (fst m) +:+ ":" +:+ stringify (snd m)) ms) +:+ "}"
  end.

(** Property access [o.k] on a parsed object: the last member of that
    name, as a repeated key overwrites the earlier one. *)
Fixpoint member (k : string) (ms : list (string * JsValue)) : option JsValue :=
  match ms with
  | [] => None
  | (k', v) :: ms' =>
      match member k ms' with
      | Some w => Some w
      | None => if String.eqb k k' then Some v else None
      end
  end.

(** A JSON text written with single quotes in place of double quotes. *)
Definition sq (s : string) : string :=
  string_of_list_ascii
    (map (fun c => if (code c =? 39)%N then dquote else c) (list_ascii_of_string s)).

End JSON.

Import JSON.

(** ** The data model ([types.ts]) *)

Inductive AppState : Type := SETUP | LOCKED | UNLOCKED.

Inductive SecurityStatus : Type := IDLE | CHECKING | BREACH_DETECTED | GRANTED.

Record AppSettings : Type := {
  alertEmail : string;
  triggerThreshold : Z;
  enableCapture : bool
}.

Record IntruderLog : Type := {
  id : string;
  timestamp : Z;
  imageData : string;
  attemptNumber : Z;
  aiAnalysis : option string
}.

#[global] Instance IntruderLog_eq_dec : EqDecision IntruderLog.
Proof. solve_decision. Defined.

Definition PIN_STORAGE_KEY : string := "vault_guard_pin".
Definition LOGS_STORAGE_KEY : string := "vault_guard_logs".
Definition SETTINGS_STORAGE_KEY : string := "vault_guard_settings".

Definition DEFAULT_SETTINGS : AppSettings :=
  {| alertEmail := ""; triggerThreshold := 1; enableCapture := true |}.

(** *** Values of these types as JSON

    [JSON.stringify] of a settings object and of a log, members in the
    order the component writes them; a log without analysis has no
    [aiAnalysis] member. *)

Definition settings_json (s : AppSettings) : JsValue :=
  JObj [("alertEmail", JStr (alertEmail s));
        ("triggerThreshold", JNum (triggerThreshold s));
        ("enableCapture", JBool (enableCapture s))].

Definition log_json (l : IntruderLog) : JsValue :=
  JObj ([("id", JStr (id l));
         ("timestamp", JNum (timestamp l));
         ("imageData", JStr (imageData l));
         ("attemptNumber", JNum (attemptNumber l))]
        ++ match aiAnalysis l with
           | Some a => [("aiAnalysis", JStr a)]
           | None => []
           end).

Definition logs_json (ls : list IntruderLog) : JsValue := JArr (map log_json ls).

(** The component hands the result of [JSON.parse] to a state variable of
    type [AppSettings] (or [IntruderLog[]]) unchecked. The typed reading
    below succeeds on the values that do have the declared type. *)

Definition asAppSettings (v : JsValue) : option AppSettings :=
  match v with
  | JObj ms =>
      match member "alertEmail" ms, member "triggerThreshold" ms,
            member "enableCapture" ms with
      | Some (JStr e), Some (JNum t), Some (JBool c) =>
          Some {| alertEmail := e; triggerThreshold := t; enableCapture := c |}
      | _, _, _ => None
      end
  | _ => None
  end.

Definition asIntruderLog (v : JsValue) : option IntruderLog :=
  match v with
  | JObj ms =>
      match member "id" ms, member "timestamp" ms, member "imageData" ms,
            member "attemptNumber" ms with
      | Some (JStr i), Some (JNum t), Some (JStr d), Some (JNum n) =>
          match member "aiAnalysis" ms with
          | None => Some {| id := i; timestamp := t; imageData := d;
                            attemptNumber := n; aiAnalysis := None |}
          | Some (JStr a) => Some {| id := i; timestamp := t; imageData := d;
                                     attemptNumber := n; aiAnalysis := Some a |}
          | Some _ => None
          end
      | _, _, _, _ => None
      end
  | _ => None
  end.

Fixpoint asLogList (vs : list JsValue) : option (list IntruderLog) :=
  match vs with
  | [] => Some []
  | v :: vs' =>
      match asIntruderLog v, asLogList vs' with
      | Some l, Some ls => Some (l :: ls)
      | _, _ => None
      end
  end.

Definition asLogs (v : JsValue) : option (list IntruderLog) :=
  match v with
  | JArr vs => asLogList vs
  | _ => None
  end.

(** ** The component [App] *)

(** The eleven state variables of the component. *)
Record App : Type := {
  appState : AppState;
  inputPin : string;
  storedPin : option string;
  logs : list IntruderLog;
  settings : AppSettings;
  securityStatus : SecurityStatus;
  cameraActive : bool;
  analyzingId : option string;
  sessionFailedAttempts : Z;
  showSettings : bool;
  alertMessage : option string
}.

(** The arguments of the [useState] calls. *)
Definition initialApp : App :=
  {| appState := SETUP; inputPin := ""; storedPin := None; logs := [];
     settings := DEFAULT_SETTINGS; securityStatus := IDLE;
     cameraActive := false; analyzingId := None;
     sessionFailedAttempts := 0; showSettings := false;
     alertMessage := None |}.

(** What a handler does, in program order: calls of state setters, writes
    to [localStorage], dialogs and console lines, and the calls of
    [captureIntruder] and [sendSecurityAlert]. *)
Inductive Op : Type :=
| SetAppState (a : AppState)
| SetInputPin (s : string)
| SetStoredPin (p : string)
| SetLogs (l : list IntruderLog)
| SetSettings (s : AppSettings)
| SetSecurityStatus (s : SecurityStatus)
| SetCameraActive (b : bool)
| SetAnalyzingId (i : option string)
| SetSessionFailedAttempts (n : Z)
| SetShowSettings (b : bool)
| SetAlertMessage (m : option string)
| StorageSetItem (key value : string)
| WindowAlert (msg : string)
| ConsoleLog (msg : string)
| ConsoleError (msg : string)
| CallCaptureIntruder (returned : option string)
| CallSendSecurityAlert (image : string) (attemptCount : Z).

Inductive Effect : Type :=
| Do (o : Op)
| SetTimeout (callback : list Op) (ms : Z).

(** What a resumed submission finds outside the component: the two
    element refs, the canvas, and the two readings of [Date.now()]. *)
Record Env : Type := {
  videoRef : bool;
  canvasRef : bool;
  getContext : bool;
  toDataURL : string;
  now_id : Z;
  now_timestamp : Z
}.

(** JavaScript truthiness of a [string | null]. *)
Definition truthy (s : option string) : bool :=
  match s with
  | Some v => negb (String.eqb v "")
  | None => false
  end.

(** [captureIntruder], with [cameraActive] as its render saw it. *)
Definition captureIntruder (c : App) (env : Env) : option string :=
  if negb (videoRef env) || negb (canvasRef env) || negb (cameraActive c) then None
  else if getContext env then Some (toDataURL env)
  else None.

Definition sendSecurityAlert (c : App) (image : string) (attemptCount : Z) : list Effect :=
  if negb (truthy (Some (alertEmail (settings c)))) then []
  else
    [Do (ConsoleLog ("[ALERT SYSTEM] Sending email to " +:+ alertEmail (settings c)));
     Do (ConsoleLog ("[ALERT SYSTEM] Subject: Intruder Alert! "
                     +:+ number_text attemptCount +:+ " failed attempts detected."));
     Do (ConsoleLog "[ALERT SYSTEM] Attachment: [Base64 Image Data]");
     Do (SetAlertMessage (Some ("Alert sent to " +:+ alertEmail (settings c))));
     SetTimeout [SetAlertMessage None] 3000].

(** The comparison [inputPin === storedPin]. *)
Definition pin_matches (c : App) : bool :=
  match storedPin c with
  | Some p => String.eqb (inputPin c) p
  | None => false
  end.

(** [handlePinSubmit] up to its [await]. *)
Definition handlePinSubmit_start : list Effect :=
  [Do (SetSecurityStatus CHECKING)].

Definition newLog (env : Env) (image : string) (currentAttempts : Z) : IntruderLog :=
  {| id := number_text (now_id env);
     timestamp := now_timestamp env;
     imageData := image;
     attemptNumber := currentAttempts;
     aiAnalysis := None |}.

(** The capture block of a failed attempt. *)
Definition capture_and_log (c : App) (env : Env) (currentAttempts : Z) : list Effect :=
  let imageData := captureIntruder c env in
  Do (CallCaptureIntruder imageData) ::
  (if truthy imageData then
     match imageData with
     | Some image =>
         let updatedLogs := newLog env image currentAttempts :: logs c in
         [Do (SetLogs updatedLogs);
          Do (StorageSetItem LOGS_STORAGE_KEY (stringify (logs_json updatedLogs)));
          Do (CallSendSecurityAlert image currentAttempts)]
         ++ sendSecurityAlert c image currentAttempts
     | None => []
     end
   else []).

(** [handlePinSubmit] after the 600 ms wait; [c] is the render the call
    was made from, whose variables the function body reads. *)
Definition handlePinSubmit_resume (c : App) (env : Env) : list Effect :=
  match appState c with
  | SETUP =>
      if (String.length (inputPin c) =? 4)%nat then
        [Do (StorageSetItem PIN_STORAGE_KEY (inputPin c));
         Do (SetStoredPin (inputPin c));
         Do (SetAppState LOCKED);
         Do (SetInputPin "");
         Do (SetSecurityStatus IDLE);
         Do (WindowAlert "Passcode set successfully! System is now armed.")]
      else
        [Do (SetSecurityStatus IDLE)]
  | LOCKED =>
      if pin_matches c then
        [Do (SetSecurityStatus GRANTED);
         Do (SetSessionFailedAttempts 0);
         SetTimeout [SetAppState UNLOCKED; SetInputPin ""; SetSecurityStatus IDLE] 500]
      else
        let currentAttempts := sessionFailedAttempts c + 1 in
        [Do (SetSecurityStatus BREACH_DETECTED);
         Do (SetSessionFailedAttempts currentAttempts)]
        ++ (if enableCapture (settings c)
               && (triggerThreshold (settings c) <=? currentAttempts)
            then capture_and_log c env currentAttempts
            else [])
        ++ [SetTimeout [SetInputPin ""; SetSecurityStatus IDLE] 1000]
  | UNLOCKED => []
  end.

Definition handlePinSubmit (c : App) (env : Env) : list Effect :=
  handlePinSubmit_start ++ handlePinSubmit_resume c env.

(** *** State, store and pending work

    [set o a]: the state after the setter call [o]; the other operations
    leave the state variables alone. *)
Definition set (o : Op) (a : App) : App :=
  match o with
  | SetAppState x =>
      {| appState := x; inputPin := inputPin a; storedPin := storedPin a;
         logs := logs a; settings := settings a;
         securityStatus := securityStatus a; cameraActive := cameraActive a;
         analyzingId := analyzingId a;
         sessionFailedAttempts := sessionFailedAttempts a;
         showSettings := showSettings a; alertMessage := alertMessage a |}
  | SetInputPin x =>
      {| appState := appState a; inputPin := x; storedPin := storedPin a;
         logs := logs a; settings := settings a;
         securityStatus := securityStatus a; cameraActive := cameraActive a;
         analyzingId := analyzingId a;
         sessionFailedAttempts := sessionFailedAttempts a;
         showSettings := showSettings a; alertMessage := alertMessage a |}
  | SetStoredPin x =>
      {| appState := appState a; inputPin := inputPin a; storedPin := Some x;
         logs := logs a; settings := settings a;
         securityStatus := securityStatus a; cameraActive := cameraActive a;
         analyzingId := analyzingId a;
         sessionFailedAttempts := sessionFailedAttempts a;
         showSettings := showSettings a; alertMessage := alertMessage a |}
  | SetLogs x =>
      {| appState := appState a; inputPin := inputPin a;
         storedPin := storedPin a; logs := x; settings := settings a;
         securityStatus := securityStatus a; cameraActive := cameraActive a;
         analyzingId := analyzingId a;
         sessionFailedAttempts := sessionFailedAttempts a;
         showSettings := showSettings a; alertMessage := alertMessage a |}
  | SetSettings x =>
      {| appState := appState a; inputPin := inputPin a;
         storedPin := storedPin a; logs := logs a; settings := x;
         securityStatus := securityStatus a; cameraActive := cameraActive a;
         analyzingId := analyzingId a;
         sessionFailedAttempts := sessionFailedAttempts a;
         showSettings := showSettings a; alertMessage := alertMessage a |}
  | SetSecurityStatus x =>
      {| appState := appState a; inputPin := inputPin a;
         storedPin := storedPin a; logs := logs a; settings := settings a;
         securityStatus := x; cameraActive := cameraActive a;
         analyzingId := analyzingId a;
         sessionFailedAttempts := sessionFailedAttempts a;
         showSettings := showSettings a; alertMessage := alertMessage a |}
  | SetCameraActive x =>
      {| appState := appState a; inputPin := inputPin a;
         storedPin := storedPin a; logs := logs a; settings := settings a;
         securityStatus := securityStatus a; cameraActive := x;
         analyzingId := analyzingId a;
         sessionFailedAttempts := sessionFailedAttempts a;
         showSettings := showSettings a; alertMessage := alertMessage a |}
  | SetAnalyzingId x =>
      {| appState := appState a; inputPin := inputPin a;
         storedPin := storedPin a; logs := logs a; settings := settings a;
         securityStatus := securityStatus a; cameraActive := cameraActive a;
         analyzingId := x; sessionFailedAttempts := sessionFailedAttempts a;
         showSettings := showSettings a; alertMessage := alertMessage a |}
  | SetSessionFailedAttempts x =>
      {| appState := appState a; inputPin := inputPin a;
         storedPin := storedPin a; logs := logs a; settings := settings a;
         securityStatus := securityStatus a; cameraActive := cameraActive a;
         analyzingId := analyzingId a; sessionFailedAttempts := x;
         showSettings := showSettings a; alertMessage := alertMessage a |}
  | SetShowSettings x =>
      {| appState := appState a; inputPin := inputPin a;
         storedPin := storedPin a; logs := logs a; settings := settings a;
         securityStatus := securityStatus a; cameraActive := cameraActive a;
         analyzingId := analyzingId a;
         sessionFailedAttempts := sessionFailedAttempts a; showSettings := x;
         alertMessage := alertMessage a |}
  | SetAlertMessage x =>
      {| appState := appState a; inputPin := inputPin a;
         storedPin := storedPin a; logs := logs a; settings := settings a;
         securityStatus := securityStatus a; cameraActive := cameraActive a;
         analyzingId := analyzingId a;
         sessionFailedAttempts := sessionFailedAttempts a;
         showSettings := showSettings a; alertMessage := x |}
  | StorageSetItem _ _ | WindowAlert _ | ConsoleLog _ | ConsoleError _
  | CallCaptureIntruder _ | CallSendSecurityAlert _ _ => a
  end.

(** A function suspended at an [await], or a timer, waiting for its turn
    on the event loop. A suspended function keeps the render it was
    called from. *)
Inductive Task : Type :=
| Timer (callback : list Op) (ms : Z)
| SubmitAwait (c : App)
| AnalyzeAwait (c : App) (log : IntruderLog).

Record World : Type := {
  ui : App;
  localStorage : gmap string string;
  tasks : list Task
}.

(** A write to the store is taken to succeed: the store is a plain map
    from keys to strings, with no quota. *)
Definition apply_op (o : Op) (w : World) : World :=
  {| ui := set o (ui w);
     localStorage :=
       match o with
       | StorageSetItem k v => <[k := v]> (localStorage w)
       | _ => localStorage w
       end;
     tasks := tasks w |}.

Definition play (ops : list Op) (w : World) : World :=
  fold_left (fun w o => apply_op o w) ops w.

Definition enqueue (t : Task) (w : World) : World :=
  {| ui := ui w; localStorage := localStorage w; tasks := tasks w ++ [t] |}.

Definition perform (e : Effect) (w : World) : World :=
  match e with
  | Do o => apply_op o w
  | SetTimeout callback ms => enqueue (Timer callback ms) w
  end.

Definition run (es : list Effect) (w : World) : World :=
  fold_left (fun w e => perform e w) es w.

(** *** A handler on its own timeline

    When nothing else happens in between, the operations of a handler take
    place in this order: those of its body, then the callbacks of its
    timers, shortest delay first. *)

Fixpoint direct (es : list Effect) : list Op :=
  match es with
  | [] => []
  | Do o :: es' => o :: direct es'
  | SetTimeout _ _ :: es' => direct es'
  end.

Fixpoint timers (es : list Effect) : list (Z * list Op) :=
  match es with
  | [] => []
  | Do _ :: es' => timers es'
  | SetTimeout cb ms :: es' => (ms, cb) :: timers es'
  end.

Fixpoint insert_timer (t : Z * list Op) (ts : list (Z * list Op)) : list (Z * list Op) :=
  match ts with
  | [] => [t]
  | u :: ts' => if fst t <? fst u then t :: ts else u :: insert_timer t ts'
  end.

Definition by_delay (ts : list (Z * list Op)) : list (Z * list Op) :=
  fold_left (fun sorted t => insert_timer t sorted) ts [].

Definition timeline (es : list Effect) : list Op :=
  direct es ++ flat_map snd (by_delay (timers es)).

(** The values [securityStatus] takes while [ops] run, from [s0] on. *)
Fixpoint status_history (s0 : SecurityStatus) (ops : list Op) : list SecurityStatus :=
  match ops with
  | [] => [s0]
  | SetSecurityStatus s :: ops' => s0 :: status_history s ops'
  | _ :: ops' => status_history s0 ops'
  end.

(** One submission from the state [w] shows, run to its end. *)
Definition submit (w : World) (env : Env) : World :=
  play (timeline (handlePinSubmit (ui w) env)) w.

(** ** The analysis service ([services/geminiService.ts]) *)

(** A call either returns or throws (an [async] function: resolves or
    rejects). *)
Inductive Outcome (A : Type) : Type :=
| Returned (a : A)
| Thrown (error : string).
Arguments Returned {A} a.
Arguments Thrown {A} error.

Definition bind {A B : Type} (m : Outcome A) (k : A -> Outcome B) : Outcome B :=
  match m with
  | Returned a => k a
  | Thrown e => Thrown e
  end.

Definition try_catch {A : Type} (body : Outcome A) (handler : string -> Outcome A)
  : Outcome A :=
  match body with
  | Returned a => Returned a
  | Thrown e => handler e
  end.

(** The remote model, [ai.models.generateContent] for the fixed prompt:
    from the image data to a response, whose [text] may be undefined, or
    to a failure. *)
Definition Service : Type := string -> Outcome (option string).

Definition DATA_URL_PREFIXES : list string :=
  ["data:image/png;base64,"; "data:image/jpeg;base64,"; "data:image/jpg;base64,"].

(** [base64Image.replace(/^data:image\/(png|jpeg|jpg);base64,/, "")] *)
Definition strip_data_url (base64Image : string) : string :=
  match List.find (fun p => String.prefix p base64Image) DATA_URL_PREFIXES with
  | Some p => substring (String.length p)
                        (String.length base64Image - String.length p) base64Image
  | None => base64Image
  end.

Definition analyzeIntruderImage (generateContent : Service) (base64Image : string)
  : Outcome string :=
  try_catch
    (let cleanBase64 := strip_data_url base64Image in
     bind (generateContent cleanBase64) (fun response_text =>
     Returned (if truthy response_text
               then default "" response_text
               else "Analysis failed: No text returned.")))
    (fun error => Returned "Security analysis currently unavailable.").

(** ** Handlers and the event loop *)

Definition keypad_keys : list string :=
  ["1"; "2"; "3"; "4"; "5"; "6"; "7"; "8"; "9"; "0"].

(** The keypad is on screen in Setup and in Locked; in Locked it is
    disabled unless the status is idle. *)
Definition keypad_enabled (a : App) : bool :=
  match appState a, securityStatus a with
  | SETUP, _ => true
  | LOCKED, IDLE => true
  | _, _ => false
  end.

(** The effect hook on [inputPin]: submit at four characters. *)
Definition autoSubmit (w : World) : World :=
  if (String.length (inputPin (ui w)) =? 4)%nat
  then enqueue (SubmitAwait (ui w)) (run handlePinSubmit_start w)
  else w.

Definition handleKeyPress (key : string) (w : World) : World :=
  if (String.length (inputPin (ui w)) <? 4)%nat
  then autoSubmit (apply_op (SetInputPin (inputPin (ui w) +:+ key)) w)
  else w.

(** [prev.slice(0, -1)] *)
Definition drop_last (s : string) : string :=
  substring 0 (String.length s - 1) s.

Definition handleDelete (w : World) : World :=
  let s := drop_last (inputPin (ui w)) in
  if String.eqb s (inputPin (ui w)) then w
  else autoSubmit (apply_op (SetInputPin s) w).

(** The effect hook on [settings]: write-through to the store. *)
Definition saveSettings (s : AppSettings) : list Effect :=
  [Do (StorageSetItem SETTINGS_STORAGE_KEY (stringify (settings_json s)))].

Definition changeSettings (s : AppSettings) (w : World) : World :=
  run (Do (SetSettings s) :: saveSettings s) w.

(** The values a range input with [min=1], [max=5], [step=1] reports. *)
Definition range_values : list string := ["1"; "2"; "3"; "4"; "5"].

(** [parseInt] on a string of digits. *)
Definition parseInt (value : string) : Z :=
  digits_value (fst (span_digits (list_ascii_of_string value))).

Definition attach (log : IntruderLog) (analysis : string) (l : IntruderLog) : IntruderLog :=
  if String.eqb (id l) (id log)
  then {| id := id l; timestamp := timestamp l; imageData := imageData l;
          attemptNumber := attemptNumber l; aiAnalysis := Some analysis |}
  else l.

Definition handleAnalyze_start (log : IntruderLog) : list Effect :=
  [Do (SetAnalyzingId (Some (id log)))].

Definition handleAnalyze_resume (c : App) (log : IntruderLog) (analysis : string)
  : list Effect :=
  let updatedLogs := map (attach log analysis) (logs c) in
  [Do (SetLogs updatedLogs);
   Do (StorageSetItem LOGS_STORAGE_KEY (stringify (logs_json updatedLogs)));
   Do (SetAnalyzingId None)].

Inductive Event : Type :=
| KeyPress (key : string)
| DeletePress
| SubmitResumes (i : nat) (env : Env)
| TimerFires (i : nat)
| ReLock
| OpenSettings
| CloseSettings
| ThresholdInput (value : string)
| EmailInput (value : string)
| CaptureToggle
| AnalyzeClick (log : IntruderLog)
| AnalysisSettles (i : nat) (generateContent : Service)
| CameraChange (active : bool).

Definition in_list (s : string) (l : list string) : bool :=
  existsb (String.eqb s) l.

Definition is_unlocked (a : App) : bool :=
  match appState a with
  | UNLOCKED => true
  | _ => false
  end.

Definition without_task (i : nat) (w : World) : World :=
  {| ui := ui w; localStorage := localStorage w; tasks := delete i (tasks w) |}.

(** One turn of the event loop: [None] when the event cannot happen in
    [w] (its control is not on screen or is disabled, or there is no such
    pending task). Pending tasks may take their turn in any order, which
    covers the orders the timers allow. The camera's starting and stopping
    ([startCamera], [stopCamera], the browser's answer to the permission
    request) shows as [CameraChange]. *)
Definition step (w : World) (e : Event) : option World :=
  let a := ui w in
  match e with
  | KeyPress key =>
      if keypad_enabled a && in_list key keypad_keys
      then Some (handleKeyPress key w) else None
  | DeletePress =>
      if keypad_enabled a then Some (handleDelete w) else None
  | SubmitResumes i env =>
      match tasks w !! i with
      | Some (SubmitAwait c) => Some (run (handlePinSubmit_resume c env) (without_task i w))
      | _ => None
      end
  | TimerFires i =>
      match tasks w !! i with
      | Some (Timer callback _) => Some (play callback (without_task i w))
      | _ => None
      end
  | ReLock =>
      if is_unlocked a then Some (apply_op (SetAppState LOCKED) w) else None
  | OpenSettings =>
      if is_unlocked a then Some (apply_op (SetShowSettings true) w) else None
  | CloseSettings =>
      if is_unlocked a && showSettings a
      then Some (apply_op (SetShowSettings false) w) else None
  | ThresholdInput value =>
      if is_unlocked a && showSettings a && in_list value range_values
      then Some (changeSettings
                   {| alertEmail := alertEmail (settings a);
                      triggerThreshold := parseInt value;
                      enableCapture := enableCapture (settings a) |} w)
      else None
  | EmailInput value =>
      if is_unlocked a && showSettings a
      then Some (changeSettings
                   {| alertEmail := value;
                      triggerThreshold := triggerThreshold (settings a);
                      enableCapture := enableCapture (settings a) |} w)
      else None
  | CaptureToggle =>
      if is_unlocked a && showSettings a
      then Some (changeSettings
                   {| alertEmail := alertEmail (settings a);
                      triggerThreshold := triggerThreshold (settings a);
                      enableCapture := negb (enableCapture (settings a)) |} w)
      else None
  | AnalyzeClick log =>
      if is_unlocked a
         && bool_decide (log ∈ logs a)
         && negb (truthy (aiAnalysis log))
         && negb (bool_decide (analyzingId a = Some (id log)))
      then Some (enqueue (AnalyzeAwait a log) (run (handleAnalyze_start log) w))
      else None
  | AnalysisSettles i generateContent =>
      match tasks w !! i with
      | Some (AnalyzeAwait c log) =>
          match analyzeIntruderImage generateContent (imageData log) with
          | Returned analysis =>
              Some (run (handleAnalyze_resume c log analysis) (without_task i w))
          | Thrown _ => Some (without_task i w)
          end
      | _ => None
      end
  | CameraChange active => Some (apply_op (SetCameraActive active) w)
  end.

(** *** Initialization *)

(** What reading one stored JSON value comes to. *)
Inductive Loaded (A : Type) : Type :=
| Skipped                 (* nothing stored, or the empty string *)
| ParseThrew              (* [JSON.parse] threw, the [catch] logged it *)
| Typed (a : A)
| Untyped (v : JsValue).  (* valid JSON of another shape *)
Arguments Skipped {A}.
Arguments ParseThrew {A}.
Arguments Typed {A} a.
Arguments Untyped {A} v.

Definition load {A : Type} (read : JsValue -> option A) (saved : option string) : Loaded A :=
  match saved with
  | Some s =>
      if truthy saved then
        match parse s with
        | None => ParseThrew
        | Some v =>
            match read v with
            | Some a => Typed a
            | None => Untyped v
            end
        end
      else Skipped
  | None => Skipped
  end.

(** The initialization effect. A stored value that parses to something
    outside the declared type leaves the component in a state its types
    do not describe; the embedding stops there ([None]). *)
Definition initialization (storage : gmap string string) : option (list Effect) :=
  let savedPin := storage !! PIN_STORAGE_KEY in
  let savedLogs := storage !! LOGS_STORAGE_KEY in
  let savedSettings := storage !! SETTINGS_STORAGE_KEY in
  let logs_part :=
    match load asLogs savedLogs with
    | Skipped => Some []
    | ParseThrew => Some [Do (ConsoleError "Failed to parse logs")]
    | Typed l => Some [Do (SetLogs l)]
    | Untyped _ => None
    end in
  let settings_part :=
    match load asAppSettings savedSettings with
    | Skipped => Some []
    | ParseThrew => Some [Do (ConsoleError "Failed to parse settings")]
    | Typed s => Some [Do (SetSettings s)]
    | Untyped _ => None
    end in
  let pin_part :=
    match savedPin with
    | Some p =>
        if truthy savedPin
        then [Do (SetStoredPin p); Do (SetAppState LOCKED)]
        else [Do (SetAppState SETUP)]
    | None => [Do (SetAppState SETUP)]
    end in
  match logs_part, settings_part with
  | Some ls, Some ss => Some (ls ++ ss ++ pin_part)
  | _, _ => None
  end.

(** Mounting: the initialization effect, then the [settings] hook, which
    runs once for the first render and again when initialization has
    replaced the settings. *)
Definition mount (storage : gmap string string) : option World :=
  match initialization storage with
  | Some es =>
      let w := run es {| ui := initialApp; localStorage := storage; tasks := [] |} in
      let w1 := run (saveSettings DEFAULT_SETTINGS) w in
      Some (match load asAppSettings (storage !! SETTINGS_STORAGE_KEY) with
            | Typed s => run (saveSettings s) w1
            | _ => w1
            end)
  | None => None
  end.

Inductive reachable (storage : gmap string string) : World -> Prop :=
| reach_mount w : mount storage = Some w -> reachable storage w
| reach_step w e w' : reachable storage w -> step w e = Some w' -> reachable storage w'.

(** ** Observations on a handler's effects *)

(** The calls of [captureIntruder] a handler makes, with what each
    returned. *)
Fixpoint capture_calls (es : list Effect) : list (option string) :=
  match es with
  | [] => []
  | Do (CallCaptureIntruder r) :: es' => r :: capture_calls es'
  | _ :: es' => capture_calls es'
  end.

(** Whether a failed attempt, the [n]-th of the session, qualifies for a
    capture under the settings [s]. *)
Definition qualifies (s : AppSettings) (n : Z) : bool :=
  enableCapture s && (triggerThreshold s <=? n).

(** Entering [pin] on the keypad, then the submission it triggers. *)
Definition attempt (w : World) (x : string * Env) : World :=
  submit (apply_op (SetInputPin (fst x)) w) (snd x).

Definition attempts (w : World) (xs : list (string * Env)) : World :=
  fold_left attempt xs w.

(** The store holds the log list as the component last wrote it. *)
Definition logs_persisted (w : World) : Prop :=
  localStorage w !! LOGS_STORAGE_KEY = Some (stringify (logs_json (logs (ui w)))).

(** ** Predicates on what the store holds at startup *)

(** Nothing stored under the key, or a text [JSON.parse] rejects. *)
Definition unreadable (saved : option string) : Prop :=
  saved = None \/ exists s, saved = Some s /\ parse s = None.

Definition typed_or_unreadable {A : Type} (read : JsValue -> option A)
    (saved : option string) : Prop :=
  forall v, load read saved <> Untyped v.

(** ** The passcode invariant *)

Definition has_pin (a : App) : bool :=
  match storedPin a with
  | Some _ => true
  | None => false
  end.

(** Whether [ops] leave Setup only with a passcode in place; [has] tells
    whether one is in place before [ops]. *)
Fixpoint pin_safe (has : bool) (ops : list Op) : bool :=
  match ops with
  | [] => true
  | SetStoredPin _ :: ops' => pin_safe true ops'
  | SetAppState SETUP :: ops' => pin_safe has ops'
  | SetAppState _ :: ops' => has && pin_safe has ops'
  | _ :: ops' => pin_safe has ops'
  end.

Fixpoint effects_pin_safe (has : bool) (es : list Effect) : bool :=
  match es with
  | [] => true
  | Do (SetStoredPin _) :: es' => effects_pin_safe true es'
  | Do (SetAppState SETUP) :: es' => effects_pin_safe has es'
  | Do (SetAppState _) :: es' => has && effects_pin_safe has es'
  | Do _ :: es' => effects_pin_safe has es'
  | SetTimeout callback _ :: es' => pin_safe has callback && effects_pin_safe has es'
  end.

Definition passcode_present (a : App) : Prop :=
  appState a <> SETUP -> has_pin a = true.

Definition task_pin_safe (a : App) (t : Task) : Prop :=
  match t with
  | Timer callback _ => pin_safe (has_pin a) callback = true
  | SubmitAwait c => appState c <> SETUP -> has_pin c = true /\ has_pin a = true
  | AnalyzeAwait _ _ => True
  end.

Definition passcode_invariant (w : World) : Prop :=
  passcode_present (ui w) /\ Forall (task_pin_safe (ui w)) (tasks w).

(** ** The threshold invariant *)

Definition threshold_in_range (s : AppSettings) : Prop :=
  1 <= triggerThreshold s <= 5.

Definition op_keeps_threshold (o : Op) : Prop :=
  match o with
  | SetSettings s => threshold_in_range s
  | _ => True
  end.

Definition effect_keeps_threshold (e : Effect) : Prop :=
  match e with
  | Do o => op_keeps_threshold o
  | SetTimeout callback _ => Forall op_keeps_threshold callback
  end.

Definition task_keeps_threshold (t : Task) : Prop :=
  match t with
  | Timer callback _ => Forall op_keeps_threshold callback
  | _ => True
  end.

Definition threshold_invariant (w : World) : Prop :=
  threshold_in_range (settings (ui w)) /\ Forall task_keeps_threshold (tasks w).

(** The stored settings, when they load, hold a threshold in range. *)
Definition stored_threshold_in_range (storage : gmap string string) : Prop :=
  forall s, load asAppSettings (storage !! SETTINGS_STORAGE_KEY) = Typed s ->
            threshold_in_range s.

(** ** Sample data *)

Definition camera_ready : Env :=
  {| videoRef := true; canvasRef := true; getContext := true;
     toDataURL := "data:image/jpeg;base64,/9j/4AAQ";
     now_id := 1700000000000; now_timestamp := 1700000000001 |}.

Definition camera_denied : Env :=
  {| videoRef := true; canvasRef := true; getContext := false;
     toDataURL := ""; now_id := 1700000000000; now_timestamp := 1700000000001 |}.

(** A store that holds the passcode 1234 and nothing else. *)
Definition armed_store : gmap string string := {[ PIN_STORAGE_KEY := "1234" ]}.

(** A store whose settings text is cut short. *)
Definition broken_store : gmap string string :=
  {[ PIN_STORAGE_KEY := "1234"; SETTINGS_STORAGE_KEY := "{oops" ]}.

(** A store whose settings hold a threshold the slider cannot produce. *)
Definition oversized_store : gmap string string :=
  {[ SETTINGS_STORAGE_KEY :=
       sq "{'alertEmail':'','triggerThreshold':9,'enableCapture':true}" ]}.

Definition tuned_store : gmap string string :=
  {[ PIN_STORAGE_KEY := "1234";
     SETTINGS_STORAGE_KEY :=
       sq "{'alertEmail':'owner@example.com','triggerThreshold':3,'enableCapture':true}" ]}.

Definition blank : World :=
  {| ui := initialApp; localStorage := ∅; tasks := [] |}.

Definition mounted (storage : gmap string string) : World :=
  default blank (mount storage).

(** The events of [es], one after the other; an event that cannot happen
    is passed over. *)
Definition after (w : World) (es : list Event) : World :=
  fold_left (fun w e => default w (step w e)) es w.

(** Unlock with the right passcode, open the settings, move the slider. *)
Definition slider_session : list Event :=
  [KeyPress "1"; KeyPress "2"; KeyPress "3"; KeyPress "4";
   SubmitResumes 0 camera_ready; TimerFires 0; OpenSettings; ThresholdInput "5"].

(** Four wrong digits on the locked screen, not yet checked. *)
Definition wrong_pin_typed : list Event :=
  [KeyPress "9"; KeyPress "9"; KeyPress "9"; KeyPress "9"].

(** The locked screen with the camera running and [pin] on the keypad. *)
Definition locked_with (storage : gmap string string) (pin : string) : World :=
  apply_op (SetInputPin pin) (apply_op (SetCameraActive true) (mounted storage)).

(** The setup screen with [pin] on the keypad. *)
Definition setup_with (pin : string) : World :=
  apply_op (SetInputPin pin) (mounted ∅).

(** ** Further definitions for the properties of the persistence, the
    keypad, runs of attempts and the camera *)

(** *** JSON texts as token lists *)

(** The characters of a decimal numeral. *)
Definition uchars (d : Decimal.uint) : list ascii :=
  list_ascii_of_string (NilEmpty.string_of_uint d).

(** One step of [digits_value]. *)
Definition digit_step (a : Z) (d : ascii) : Z := 10 * a + Z.of_N (code d - 48).

(** The tokens of the JSON text of a settings object, and of a log. *)
Definition settings_tokens (s : AppSettings) : list Token :=
  [TLBrace; TString "alertEmail"; TColon; TString (alertEmail s); TComma;
   TString "triggerThreshold"; TColon; TNumber (number_text (triggerThreshold s)); TComma;
   TString "enableCapture"; TColon; TWord (if enableCapture s then "true" else "false");
   TRBrace].

Definition log_tokens (l : IntruderLog) : list Token :=
  [TLBrace; TString "id"; TColon; TString (id l); TComma;
   TString "timestamp"; TColon; TNumber (number_text (timestamp l)); TComma;
   TString "imageData"; TColon; TString (imageData l); TComma;
   TString "attemptNumber"; TColon; TNumber (number_text (attemptNumber l))]
  ++ match aiAnalysis l with
     | Some a => [TComma; TString "aiAnalysis"; TColon; TString a]
     | None => []
     end
  ++ [TRBrace].

Fixpoint logs_tokens (ls : list IntruderLog) : list Token :=
  match ls with
  | [] => []
  | [l] => log_tokens l
  | l :: ls' => log_tokens l ++ TComma :: logs_tokens ls'
  end.


(** *** What the store holds, against the state *)

(** Operations that touch neither the persisted state variables nor the
    store. *)
Definition op_inert (o : Op) : bool :=
  match o with
  | SetSettings _ | SetLogs _ | SetStoredPin _ | StorageSetItem _ _ => false
  | _ => true
  end.

Definition task_inert (t : Task) : bool :=
  match t with
  | Timer callback _ => forallb op_inert callback
  | _ => true
  end.

(** The store holds the settings as JSON, its log text reads back as the
    list of logs (or is unreadable and the list is empty), and the stored
    passcode is the passcode in the store. *)
Definition store_agrees (a : App) (st : gmap string string) : Prop :=
  st !! SETTINGS_STORAGE_KEY = Some (stringify (settings_json (settings a)))
  /\ (load asLogs (st !! LOGS_STORAGE_KEY) = Typed (logs a)
      \/ (logs a = []
          /\ (load asLogs (st !! LOGS_STORAGE_KEY) = Skipped
              \/ load asLogs (st !! LOGS_STORAGE_KEY) = ParseThrew)))
  /\ storedPin a
     = (if truthy (st !! PIN_STORAGE_KEY) then st !! PIN_STORAGE_KEY else None).

Definition persistence_invariant (w : World) : Prop :=
  store_agrees (ui w) (localStorage w) /\ forallb task_inert (tasks w) = true.

(** Effect lists that write a persisted state variable only together
    with its store entry. *)
Inductive keeps_store : list Effect -> Prop :=
| ks_nil : keeps_store []
| ks_do o es : op_inert o = true -> keeps_store es -> keeps_store (Do o :: es)
| ks_timer cb ms es :
    forallb op_inert cb = true -> keeps_store es ->
    keeps_store (SetTimeout cb ms :: es)
| ks_logs l es :
    keeps_store es ->
    keeps_store (Do (SetLogs l)
                 :: Do (StorageSetItem LOGS_STORAGE_KEY (stringify (logs_json l))) :: es)
| ks_pin p es :
    p <> "" -> keeps_store es ->
    keeps_store (Do (StorageSetItem PIN_STORAGE_KEY p) :: Do (SetStoredPin p) :: es)
| ks_settings s es :
    keeps_store es ->
    keeps_store (Do (SetSettings s)
                 :: Do (StorageSetItem SETTINGS_STORAGE_KEY (stringify (settings_json s)))
                 :: es).


(** *** The keypad input *)

Definition digits (s : string) : bool := forallb is_digit (list_ascii_of_string s).

Definition pin_prefix (s : string) : Prop :=
  (String.length s <= 4)%nat /\ digits s = true.

Definition op_entry (o : Op) : bool :=
  match o with
  | SetInputPin s => String.eqb s ""
  | StorageSetItem k _ => negb (String.eqb k PIN_STORAGE_KEY)
  | _ => true
  end.

Definition task_entry (t : Task) : Prop :=
  match t with
  | Timer callback _ => forallb op_entry callback = true
  | SubmitAwait c => pin_prefix (inputPin c)
  | AnalyzeAwait _ _ => True
  end.

Definition four_digits (p : string) : Prop :=
  String.length p = 4%nat /\ digits p = true.

Definition pin_written_or_initial (storage st : gmap string string) : Prop :=
  st !! PIN_STORAGE_KEY = storage !! PIN_STORAGE_KEY
  \/ exists p, st !! PIN_STORAGE_KEY = Some p /\ four_digits p.

Definition entry_invariant (storage : gmap string string) (w : World) : Prop :=
  pin_prefix (inputPin (ui w))
  /\ pin_written_or_initial storage (localStorage w)
  /\ Forall task_entry (tasks w).

(** Effect lists that only clear the input and write only a four-digit
    passcode. *)
Inductive keeps_entry : list Effect -> Prop :=
| ke_nil : keeps_entry []
| ke_do o es : op_entry o = true -> keeps_entry es -> keeps_entry (Do o :: es)
| ke_timer cb ms es :
    forallb op_entry cb = true -> keeps_entry es -> keeps_entry (SetTimeout cb ms :: es)
| ke_pin p es :
    four_digits p -> keeps_entry es ->
    keeps_entry (Do (StorageSetItem PIN_STORAGE_KEY p) :: es).


(** *** Runs of attempts *)

(** A capture with this environment yields an image. *)
Definition camera_ok (env : Env) : bool :=
  videoRef env && canvasRef env && getContext env && negb (String.eqb (toDataURL env) "").

(** The log a failed attempt, the [n]-th of the session, leaves. *)
Definition captured (a : App) (env : Env) (n : Z) : list IntruderLog :=
  if qualifies (settings a) n && truthy (captureIntruder a env)
  then match captureIntruder a env with
       | Some image => [newLog env image n]
       | None => []
       end
  else [].


(** *** The camera logic ([startCamera], [stopCamera] and the effect hook
    on [appState]) on its own *)

Module Camera.

(** The camera logic of the component: the stream ref, the
    [cameraActive] state, the streams whose tracks run, and the calls of
    [getUserMedia] not yet answered. *)
Record Cam : Type := {
  mode : AppState;
  streamRef : option nat;
  cameraActive : bool;
  running : list nat;
  pending : nat
}.

Definition initial : Cam :=
  {| mode := SETUP; streamRef := None; cameraActive := false; running := [];
     pending := 0 |}.

Definition stopCamera (c : Cam) : Cam :=
  match streamRef c with
  | Some s =>
      {| mode := mode c; streamRef := None; cameraActive := false;
         running := List.filter (fun t => negb (Nat.eqb t s)) (running c);
         pending := pending c |}
  | None => c
  end.

(** [startCamera] up to its [await]. *)
Definition startCamera (c : Cam) : Cam :=
  match streamRef c with
  | Some _ => c
  | None =>
      {| mode := mode c; streamRef := None; cameraActive := cameraActive c;
         running := running c; pending := S (pending c) |}
  end.

(** [startCamera] after [getUserMedia] has answered: a stream, or the
    [catch] branch. The video element exists in the locked view only. *)
Definition startCamera_settle (answer : option nat) (c : Cam) : Cam :=
  match answer with
  | Some s =>
      {| mode := mode c; streamRef := Some s;
         cameraActive := match mode c with LOCKED => true | _ => cameraActive c end;
         running := s :: running c; pending := Nat.pred (pending c) |}
  | None =>
      {| mode := mode c; streamRef := streamRef c; cameraActive := false;
         running := running c; pending := Nat.pred (pending c) |}
  end.

(** The effect hook on [appState]: the cleanup of the previous run, then
    start in Locked mode and stop otherwise. *)
Definition appState_effect (m : AppState) (c : Cam) : Cam :=
  let c1 := stopCamera c in
  let c2 := {| mode := m; streamRef := streamRef c1; cameraActive := cameraActive c1;
               running := running c1; pending := pending c1 |} in
  match m with
  | LOCKED => startCamera c2
  | _ => stopCamera c2
  end.

Inductive CamEvent : Type :=
| ModeChange (m : AppState)
| Answer (a : option nat).

Definition cam_step (c : Cam) (e : CamEvent) : Cam :=
  match e with
  | ModeChange m => appState_effect m c
  | Answer a => if (0 <? pending c)%nat then startCamera_settle a c else c
  end.

Definition cam_run (es : list CamEvent) : Cam := fold_left cam_step es initial.

Definition active_means_streaming (c : Cam) : Prop :=
  cameraActive c = true -> mode c = LOCKED /\ exists s, streamRef c = Some s.

End Camera.

(** *** More sample data *)

Definition alerting_store : gmap string string :=
  {[ PIN_STORAGE_KEY := "1234";
     SETTINGS_STORAGE_KEY :=
       sq "{'alertEmail':'owner@example.com','triggerThreshold':1,'enableCapture':true}" ]}.

(** Creating the passcode 2580 on a fresh installation. *)
Definition setup_session : list Event :=
  [KeyPress "2"; KeyPress "5"; KeyPress "8"; KeyPress "0";
   SubmitResumes 0 camera_denied].

Definition three_keys : list Event := [KeyPress "1"; KeyPress "2"; KeyPress "3"].

Definition first_log : IntruderLog :=
  newLog camera_ready "data:image/jpeg;base64,/9j/4AAQ" 1.

(** A wrong pin is photographed, the right pin unlocks, the analysis of
    the photo is asked for. *)
Definition analysis_session : list Event :=
  [CameraChange true;
   KeyPress "0"; KeyPress "0"; KeyPress "0"; KeyPress "0";
   SubmitResumes 0 camera_ready; TimerFires 0;
   KeyPress "1"; KeyPress "2"; KeyPress "3"; KeyPress "4";
   SubmitResumes 0 camera_ready; TimerFires 0;
   AnalyzeClick first_log].

Definition describes : Service := fun _ => Returned (Some "Adult, focused, indoors.").

(** * Properties *)

(** ** Basic facts *)

Lemma capture_calls_app (es es' : list Effect) :
  capture_calls (es ++ es') = capture_calls es ++ capture_calls es'.
Proof.
  induction es as [|[[]|] es IH]; simpl; rewrite ?IH; reflexivity.
Qed.

Lemma capture_calls_In (es : list Effect) (r : option string) :
  In (Do (CallCaptureIntruder r)) es <-> In r (capture_calls es).
Proof.
  induction es as [|e es IH]; simpl; [tauto|].
  destruct e as [o|cb ms].
  - destruct o; simpl; rewrite <- IH;
      (split; [intros [H|H]; [try discriminate H|]|]); try tauto.
    + injection H as ->. now left.
    + intros [->|H]; [now left|now right].
  - rewrite <- IH. split; [intros [H|H]; [discriminate H|exact H]|tauto].
Qed.

Lemma sendSecurityAlert_no_capture (c : App) (image : string) (n : Z) :
  capture_calls (sendSecurityAlert c image n) = [].
Proof.
  unfold sendSecurityAlert. destruct (negb _); reflexivity.
Qed.

Lemma truthy_Some (s : option string) :
  truthy s = true <-> exists v, s = Some v /\ v <> "".
Proof.
  destruct s as [v|]; simpl.
  - rewrite negb_true_iff. split.
    + intros H. exists v. split; [reflexivity|].
      intros ->. discriminate.
    + intros (v' & [= <-] & Hne). apply String.eqb_neq. exact Hne.
  - split; [discriminate|]. intros (v & [=] & _).
Qed.

Lemma truthy_image (image : string) : image <> "" -> truthy (Some image) = true.
Proof. intros H. apply truthy_Some. eauto. Qed.

Lemma pin_matches_true (c : App) :
  pin_matches c = true <-> storedPin c = Some (inputPin c).
Proof.
  unfold pin_matches. destruct (storedPin c) as [p|].
  - rewrite String.eqb_eq. split; [intros ->; reflexivity | intros [= ->]; reflexivity].
  - split; discriminate.
Qed.

(** No stream, no element or no drawing context: no image. *)
Lemma captureIntruder_inactive (c : App) (env : Env) :
  cameraActive c = false \/ videoRef env = false \/ canvasRef env = false
  \/ getContext env = false ->
  captureIntruder c env = None.
Proof.
  unfold captureIntruder.
  destruct (videoRef env), (canvasRef env), (cameraActive c), (getContext env);
    simpl; intuition congruence.
Qed.

(** The keypad takes a key in Locked mode only while the status is idle:
    a submission in Locked mode starts from [IDLE]. *)
Lemma locked_keypress_idle (w w' : World) (key : string) :
  appState (ui w) = LOCKED ->
  step w (KeyPress key) = Some w' ->
  securityStatus (ui w) = IDLE.
Proof.
  intros Hm. unfold step, keypad_enabled. rewrite Hm.
  destruct (securityStatus (ui w)); simpl; congruence.
Qed.

(** ** The shape of a failed attempt *)

Lemma failed_attempt_effects (c : App) (env : Env) :
  appState c = LOCKED ->
  pin_matches c = false ->
  let n := sessionFailedAttempts c + 1 in
  handlePinSubmit c env =
    [Do (SetSecurityStatus CHECKING);
     Do (SetSecurityStatus BREACH_DETECTED);
     Do (SetSessionFailedAttempts n)]
    ++ (if qualifies (settings c) n then capture_and_log c env n else [])
    ++ [SetTimeout [SetInputPin ""; SetSecurityStatus IDLE] 1000].
Proof.
  intros Hm Hp. unfold handlePinSubmit, handlePinSubmit_resume, qualifies.
  rewrite Hm, Hp. reflexivity.
Qed.

Lemma capture_and_log_image (c : App) (env : Env) (n : Z) (image : string) :
  captureIntruder c env = Some image ->
  image <> "" ->
  capture_and_log c env n =
    [Do (CallCaptureIntruder (Some image));
     Do (SetLogs (newLog env image n :: logs c));
     Do (StorageSetItem LOGS_STORAGE_KEY
           (stringify (logs_json (newLog env image n :: logs c))));
     Do (CallSendSecurityAlert image n)]
    ++ sendSecurityAlert c image n.
Proof.
  intros Hc Hi. unfold capture_and_log. rewrite Hc, (truthy_image _ Hi). reflexivity.
Qed.

Lemma capture_and_log_none (c : App) (env : Env) (n : Z) :
  truthy (captureIntruder c env) = false ->
  capture_and_log c env n = [Do (CallCaptureIntruder (captureIntruder c env))].
Proof.
  intros Hc. unfold capture_and_log. rewrite Hc. reflexivity.
Qed.

Lemma capture_and_log_calls (c : App) (env : Env) (n : Z) :
  capture_calls (capture_and_log c env n) = [captureIntruder c env].
Proof.
  destruct (truthy (captureIntruder c env)) eqn:Ht.
  - apply truthy_Some in Ht as (image & Hc & Hi).
    rewrite (capture_and_log_image _ _ _ _ Hc Hi), capture_calls_app,
      sendSecurityAlert_no_capture, Hc. reflexivity.
  - rewrite (capture_and_log_none _ _ _ Ht). reflexivity.
Qed.

(** The counter after a failed attempt. *)
Lemma failed_attempt_counter (w : World) (env : Env) :
  appState (ui w) = LOCKED ->
  pin_matches (ui w) = false ->
  sessionFailedAttempts (ui (submit w env)) = sessionFailedAttempts (ui w) + 1.
Proof.
  intros Hm Hp. unfold submit. rewrite (failed_attempt_effects _ env Hm Hp).
  destruct (qualifies _ _); [|reflexivity].
  unfold capture_and_log, sendSecurityAlert.
  destruct (captureIntruder (ui w) env) as [img|]; [|reflexivity].
  destruct (truthy (Some img)); [|reflexivity].
  destruct (negb (truthy (Some (alertEmail (settings (ui w)))))); reflexivity.
Qed.

(** ** Capture policy *)

(** C1. In Locked mode, a failed attempt calls [captureIntruder] exactly
    when capture is enabled and the incremented counter has reached the
    threshold, whatever happened on earlier attempts; the call is made
    once; and when it yields an image, a new log is put in front of the
    list, its [attemptNumber] being the counter's new value. *)
Theorem capture_iff_enabled_and_threshold (w : World) (env : Env) :
  appState (ui w) = LOCKED ->
  pin_matches (ui w) = false ->
  let n := sessionFailedAttempts (ui w) + 1 in
  let w' := submit w env in
  sessionFailedAttempts (ui w') = n
  /\ capture_calls (handlePinSubmit (ui w) env)
     = (if qualifies (settings (ui w)) n then [captureIntruder (ui w) env] else [])
  /\ ((exists r, In (Do (CallCaptureIntruder r)) (handlePinSubmit (ui w) env))
      <-> enableCapture (settings (ui w)) = true
          /\ triggerThreshold (settings (ui w)) <= n)
  /\ (forall image,
        qualifies (settings (ui w)) n = true ->
        captureIntruder (ui w) env = Some image ->
        image <> "" ->
        logs (ui w') = newLog env image n :: logs (ui w)
        /\ attemptNumber (newLog env image n) = sessionFailedAttempts (ui w')).
Proof.
  intros Hm Hp n w'.
  pose proof (failed_attempt_counter w env Hm Hp) as Hn. fold n w' in Hn.
  assert (Hcalls : capture_calls (handlePinSubmit (ui w) env)
     = (if qualifies (settings (ui w)) n then [captureIntruder (ui w) env] else [])).
  { rewrite (failed_attempt_effects _ env Hm Hp). fold n.
    rewrite !capture_calls_app.
    destruct (qualifies (settings (ui w)) n); [|reflexivity].
    rewrite capture_and_log_calls. reflexivity. }
  split; [exact Hn|]. split; [exact Hcalls|]. split.
  - split.
    + intros [r Hr]. apply capture_calls_In in Hr. rewrite Hcalls in Hr.
      unfold qualifies in Hr.
      destruct (enableCapture (settings (ui w))); simpl in Hr; [|contradiction].
      destruct (Z.leb_spec (triggerThreshold (settings (ui w))) n); [|contradiction].
      split; [reflexivity|assumption].
    + intros [He Ht]. exists (captureIntruder (ui w) env).
      apply capture_calls_In. rewrite Hcalls. unfold qualifies. rewrite He.
      apply Z.leb_le in Ht. rewrite Ht. now left.
  - intros image Hq Hc Hi. rewrite Hn. split; [|reflexivity].
    subst w'. unfold submit. rewrite (failed_attempt_effects _ env Hm Hp). fold n.
    rewrite Hq, (capture_and_log_image _ _ _ _ Hc Hi). unfold sendSecurityAlert.
    destruct (negb (truthy (Some (alertEmail (settings (ui w)))))); reflexivity.
Qed.

Lemma capture_iff_enabled_and_threshold_witness :
  appState (ui (locked_with armed_store "0000")) = LOCKED
  /\ pin_matches (ui (locked_with armed_store "0000")) = false
  /\ sessionFailedAttempts (ui (submit (locked_with armed_store "0000") camera_ready)) = 1
  /\ capture_calls (handlePinSubmit (ui (locked_with armed_store "0000")) camera_ready)
     = [Some "data:image/jpeg;base64,/9j/4AAQ"].
Proof.
  split; [reflexivity|]. split; [reflexivity|].
  destruct (capture_iff_enabled_and_threshold
              (locked_with armed_store "0000") camera_ready eq_refl eq_refl)
    as (Hn & Hcalls & _).
  split; [exact Hn|exact Hcalls].
Defined.

(** ** The two outcomes of a submission in Locked mode *)

(** C2. A pin submitted in Locked mode that differs from the stored
    passcode raises the session's counter of failed attempts by exactly
    one, and the status goes Idle, Checking, BreachDetected, Idle, in that
    order and with nothing in between. (The keypad accepts keys in Locked
    mode only while the status is idle, see [locked_keypress_idle].) *)
Theorem failed_attempt_cycle (w : World) (env : Env) :
  appState (ui w) = LOCKED ->
  securityStatus (ui w) = IDLE ->
  pin_matches (ui w) = false ->
  let w' := submit w env in
  sessionFailedAttempts (ui w') = sessionFailedAttempts (ui w) + 1
  /\ sessionFailedAttempts (ui w) < sessionFailedAttempts (ui w')
  /\ status_history (securityStatus (ui w)) (timeline (handlePinSubmit (ui w) env))
     = [IDLE; CHECKING; BREACH_DETECTED; IDLE]
  /\ securityStatus (ui w') = IDLE.
Proof.
  intros Hm Hs Hp w'. subst w'.
  rewrite (failed_attempt_counter w env Hm Hp), Hs.
  split; [reflexivity|]. split; [lia|].
  unfold submit. rewrite (failed_attempt_effects _ env Hm Hp).
  destruct (qualifies _ _); [|split; reflexivity].
  unfold capture_and_log, sendSecurityAlert.
  destruct (captureIntruder (ui w) env) as [img|]; [|split; reflexivity].
  destruct (truthy (Some img)); [|split; reflexivity].
  destruct (negb (truthy (Some (alertEmail (settings (ui w)))))); split; reflexivity.
Qed.

Lemma failed_attempt_cycle_witness :
  appState (ui (locked_with tuned_store "4321")) = LOCKED
  /\ securityStatus (ui (locked_with tuned_store "4321")) = IDLE
  /\ pin_matches (ui (locked_with tuned_store "4321")) = false
  /\ sessionFailedAttempts (ui (submit (locked_with tuned_store "4321") camera_ready)) = 1
  /\ securityStatus (ui (submit (locked_with tuned_store "4321") camera_ready)) = IDLE.
Proof.
  split; [reflexivity|]. split; [reflexivity|]. split; [reflexivity|].
  destruct (failed_attempt_cycle
              (locked_with tuned_store "4321") camera_ready eq_refl eq_refl eq_refl)
    as (Hn & _ & _ & Hs).
  split; [exact Hn|exact Hs].
Defined.

(** C3. A pin submitted in Locked mode that equals the stored passcode
    sets the status to Granted and the counter of failed attempts to 0 at
    once, and 500 ms later the mode to Unlocked, the input to the empty
    string and the status to Idle. *)
Theorem unlock_on_match (w : World) (env : Env) :
  appState (ui w) = LOCKED ->
  storedPin (ui w) = Some (inputPin (ui w)) ->
  handlePinSubmit (ui w) env =
    [Do (SetSecurityStatus CHECKING);
     Do (SetSecurityStatus GRANTED);
     Do (SetSessionFailedAttempts 0);
     SetTimeout [SetAppState UNLOCKED; SetInputPin ""; SetSecurityStatus IDLE] 500]
  /\ (let granted := play (direct (handlePinSubmit (ui w) env)) w in
      securityStatus (ui granted) = GRANTED
      /\ sessionFailedAttempts (ui granted) = 0
      /\ appState (ui granted) = LOCKED)
  /\ (let w' := submit w env in
      sessionFailedAttempts (ui w') = 0
      /\ appState (ui w') = UNLOCKED
      /\ inputPin (ui w') = ""
      /\ securityStatus (ui w') = IDLE).
Proof.
  intros Hm Hp. apply pin_matches_true in Hp.
  assert (He : handlePinSubmit (ui w) env =
    [Do (SetSecurityStatus CHECKING);
     Do (SetSecurityStatus GRANTED);
     Do (SetSessionFailedAttempts 0);
     SetTimeout [SetAppState UNLOCKED; SetInputPin ""; SetSecurityStatus IDLE] 500]).
  { unfold handlePinSubmit, handlePinSubmit_resume. rewrite Hm, Hp. reflexivity. }
  split; [exact He|]. unfold submit. rewrite He. cbn.
  repeat split; try reflexivity. exact Hm.
Qed.

Lemma unlock_on_match_witness :
  appState (ui (locked_with armed_store "1234")) = LOCKED
  /\ storedPin (ui (locked_with armed_store "1234"))
     = Some (inputPin (ui (locked_with armed_store "1234")))
  /\ appState (ui (submit (locked_with armed_store "1234") camera_ready)) = UNLOCKED
  /\ sessionFailedAttempts (ui (submit (locked_with armed_store "1234") camera_ready)) = 0.
Proof.
  split; [reflexivity|]. split; [reflexivity|].
  destruct (unlock_on_match (locked_with armed_store "1234") camera_ready
              eq_refl eq_refl) as (_ & _ & Hn & Hm & _).
  split; [exact Hm|exact Hn].
Defined.

(** ** Creating the passcode *)

(** C4. A four-character pin submitted in Setup mode is written to the
    store under the passcode key and kept as the stored passcode; the mode
    becomes Locked, the input is cleared and the status is Idle. *)
Theorem setup_stores_pin (w : World) (env : Env) :
  appState (ui w) = SETUP ->
  String.length (inputPin (ui w)) = 4%nat ->
  let w' := submit w env in
  localStorage w' !! PIN_STORAGE_KEY = Some (inputPin (ui w))
  /\ storedPin (ui w') = Some (inputPin (ui w))
  /\ appState (ui w') = LOCKED
  /\ inputPin (ui w') = ""
  /\ securityStatus (ui w') = IDLE.
Proof.
  intros Hm Hl w'. subst w'. unfold submit, handlePinSubmit, handlePinSubmit_resume.
  rewrite Hm, Hl. cbn.
  repeat split. apply lookup_insert_eq.
Qed.

Lemma setup_stores_pin_witness :
  appState (ui (setup_with "2580")) = SETUP
  /\ String.length (inputPin (ui (setup_with "2580"))) = 4%nat
  /\ localStorage (submit (setup_with "2580") camera_denied) !! PIN_STORAGE_KEY
     = Some "2580"
  /\ appState (ui (submit (setup_with "2580") camera_denied)) = LOCKED.
Proof.
  split; [reflexivity|]. split; [reflexivity|].
  destruct (setup_stores_pin (setup_with "2580") camera_denied eq_refl eq_refl)
    as (Hs & _ & Hm & _).
  split; [exact Hs|exact Hm].
Defined.

(** ** A capture without an image *)

(** C5. When a qualifying failed attempt gets no image from
    [captureIntruder], the handler does nothing but set the status and the
    counter, make that one call and start the 1000 ms timer: no log is
    built, the store is not written, [sendSecurityAlert] is not called,
    nothing is shown or logged as an error; the list of logs is unchanged
    and the cycle ends with the status Idle and the input cleared. *)
Theorem no_image_no_log (w : World) (env : Env) :
  appState (ui w) = LOCKED ->
  pin_matches (ui w) = false ->
  let n := sessionFailedAttempts (ui w) + 1 in
  qualifies (settings (ui w)) n = true ->
  truthy (captureIntruder (ui w) env) = false ->
  let w' := submit w env in
  handlePinSubmit (ui w) env =
    [Do (SetSecurityStatus CHECKING);
     Do (SetSecurityStatus BREACH_DETECTED);
     Do (SetSessionFailedAttempts n);
     Do (CallCaptureIntruder (captureIntruder (ui w) env));
     SetTimeout [SetInputPin ""; SetSecurityStatus IDLE] 1000]
  /\ logs (ui w') = logs (ui w)
  /\ localStorage w' = localStorage w
  /\ alertMessage (ui w') = alertMessage (ui w)
  /\ securityStatus (ui w') = IDLE
  /\ inputPin (ui w') = "".
Proof.
  intros Hm Hp n Hq Hc w'. subst w'. unfold submit.
  rewrite (failed_attempt_effects _ env Hm Hp). fold n.
  rewrite Hq, (capture_and_log_none _ _ _ Hc). cbn.
  repeat split.
Qed.

Lemma no_image_no_log_witness :
  appState (ui (locked_with armed_store "0000")) = LOCKED
  /\ pin_matches (ui (locked_with armed_store "0000")) = false
  /\ qualifies (settings (ui (locked_with armed_store "0000")))
       (sessionFailedAttempts (ui (locked_with armed_store "0000")) + 1) = true
  /\ truthy (captureIntruder (ui (locked_with armed_store "0000")) camera_denied) = false
  /\ logs (ui (submit (locked_with armed_store "0000") camera_denied)) = []
  /\ securityStatus (ui (submit (locked_with armed_store "0000") camera_denied)) = IDLE.
Proof.
  split; [reflexivity|]. split; [reflexivity|]. split; [reflexivity|].
  split; [reflexivity|].
  destruct (no_image_no_log (locked_with armed_store "0000") camera_denied
              eq_refl eq_refl eq_refl eq_refl) as (_ & Hl & _ & _ & Hs & _).
  split; [exact Hl|exact Hs].
Defined.

(** ** Newest first, and stored before the alert *)

Lemma submit_logs (w : World) (env : Env) :
  (logs (ui (submit w env)) = logs (ui w)
   /\ localStorage (submit w env) !! LOGS_STORAGE_KEY = localStorage w !! LOGS_STORAGE_KEY)
  \/ (exists l, logs (ui (submit w env)) = l :: logs (ui w)
                /\ logs_persisted (submit w env)).
Proof.
  unfold logs_persisted, submit, handlePinSubmit, handlePinSubmit_resume.
  destruct (appState (ui w)).
  - destruct (_ =? _)%nat; left; cbn; split; try reflexivity.
    apply lookup_insert_ne. discriminate.
  - destruct (pin_matches (ui w)); [left; split; reflexivity|].
    destruct (_ && _); [|left; split; reflexivity].
    unfold capture_and_log, sendSecurityAlert.
    destruct (captureIntruder (ui w) env) as [img|]; [|left; split; reflexivity].
    destruct (truthy (Some img)); [|left; split; reflexivity].
    right. eexists.
    destruct (negb (truthy (Some (alertEmail (settings (ui w))))));
      cbn; (split; [reflexivity|apply lookup_insert_eq]).
  - left. split; reflexivity.
Qed.

Lemma attempt_logs (w : World) (x : string * Env) :
  (logs (ui (attempt w x)) = logs (ui w)
   /\ localStorage (attempt w x) !! LOGS_STORAGE_KEY = localStorage w !! LOGS_STORAGE_KEY)
  \/ (exists l, logs (ui (attempt w x)) = l :: logs (ui w)
                /\ logs_persisted (attempt w x)).
Proof.
  unfold attempt.
  destruct (submit_logs (apply_op (SetInputPin (fst x)) w) (snd x)) as [H|H];
    [left|right]; exact H.
Qed.

(** Whatever is submitted next, logs are only ever added at the front,
    and the store follows. *)
Lemma attempts_logs (xs : list (string * Env)) (w : World) :
  logs_persisted w ->
  exists newer,
    logs (ui (attempts w xs)) = newer ++ logs (ui w)
    /\ logs_persisted (attempts w xs).
Proof.
  revert w. induction xs as [|x xs IH]; intros w Hw.
  - exists []. split; [reflexivity|exact Hw].
  - simpl. destruct (attempt_logs w x) as [[Hl Hs]|(l & Hl & Hs)].
    + destruct (IH (attempt w x)) as (newer & Hn & Hp).
      { unfold logs_persisted. rewrite Hs, Hl. exact Hw. }
      exists newer. rewrite <- Hl. split; assumption.
    + destruct (IH (attempt w x) Hs) as (newer & Hn & Hp).
      exists (newer ++ [l]). rewrite <- app_assoc. simpl. rewrite <- Hl.
      split; assumption.
Qed.

(** C6. On a capture that yields an image, the new log is put in front of
    the list of logs, and the whole new list is written to the store
    before [sendSecurityAlert] is called: when that call is made, both the
    state and the store hold the new list. Logs created by later
    submissions come before it, and it comes before those that were there
    already; the store holds the list as it stands. *)
Theorem log_persisted_before_alert (w : World) (env : Env) (image : string) :
  appState (ui w) = LOCKED ->
  pin_matches (ui w) = false ->
  let n := sessionFailedAttempts (ui w) + 1 in
  qualifies (settings (ui w)) n = true ->
  captureIntruder (ui w) env = Some image ->
  image <> "" ->
  let updatedLogs := newLog env image n :: logs (ui w) in
  let before_alert :=
    [Do (SetSecurityStatus CHECKING);
     Do (SetSecurityStatus BREACH_DETECTED);
     Do (SetSessionFailedAttempts n);
     Do (CallCaptureIntruder (Some image));
     Do (SetLogs updatedLogs);
     Do (StorageSetItem LOGS_STORAGE_KEY (stringify (logs_json updatedLogs)))] in
  handlePinSubmit (ui w) env =
    before_alert
    ++ Do (CallSendSecurityAlert image n) :: sendSecurityAlert (ui w) image n
    ++ [SetTimeout [SetInputPin ""; SetSecurityStatus IDLE] 1000]
  /\ logs (ui (run before_alert w)) = updatedLogs
  /\ localStorage (run before_alert w) !! LOGS_STORAGE_KEY
     = Some (stringify (logs_json updatedLogs))
  /\ (forall later : list (string * Env),
        let w2 := attempts (submit w env) later in
        exists newer,
          logs (ui w2) = newer ++ updatedLogs
          /\ localStorage w2 !! LOGS_STORAGE_KEY
             = Some (stringify (logs_json (logs (ui w2))))).
Proof.
  intros Hm Hp n Hq Hc Hi updatedLogs before_alert.
  assert (He : handlePinSubmit (ui w) env =
    before_alert
    ++ Do (CallSendSecurityAlert image n) :: sendSecurityAlert (ui w) image n
    ++ [SetTimeout [SetInputPin ""; SetSecurityStatus IDLE] 1000]).
  { rewrite (failed_attempt_effects _ env Hm Hp). fold n.
    rewrite Hq, (capture_and_log_image _ _ _ _ Hc Hi). reflexivity. }
  split; [exact He|]. split; [reflexivity|]. split; [apply lookup_insert_eq|].
  intros later w2.
  assert (Hlogs : logs (ui (submit w env)) = updatedLogs
                  /\ logs_persisted (submit w env)).
  { unfold logs_persisted, submit. rewrite He. subst before_alert.
    unfold sendSecurityAlert.
    destruct (negb (truthy (Some (alertEmail (settings (ui w))))));
      cbn; (split; [reflexivity|apply lookup_insert_eq]). }
  destruct Hlogs as [Hl Hs].
  destruct (attempts_logs later (submit w env) Hs) as (newer & Hn & Hp').
  exists newer. subst w2. rewrite Hn, Hl. split; [reflexivity|].
  rewrite <- Hl, <- Hn. exact Hp'.
Qed.

Lemma log_persisted_before_alert_witness :
  appState (ui (locked_with armed_store "0000")) = LOCKED
  /\ pin_matches (ui (locked_with armed_store "0000")) = false
  /\ qualifies (settings (ui (locked_with armed_store "0000")))
       (sessionFailedAttempts (ui (locked_with armed_store "0000")) + 1) = true
  /\ captureIntruder (ui (locked_with armed_store "0000")) camera_ready
     = Some "data:image/jpeg;base64,/9j/4AAQ"
  /\ "data:image/jpeg;base64,/9j/4AAQ" <> ""
  /\ exists newer,
       logs (ui (attempts (submit (locked_with armed_store "0000") camera_ready)
                   [("1111", camera_ready); ("2222", camera_denied)]))
       = newer ++ [newLog camera_ready "data:image/jpeg;base64,/9j/4AAQ" 1].
Proof.
  split; [reflexivity|]. split; [reflexivity|]. split; [reflexivity|].
  split; [reflexivity|]. split; [discriminate|].
  destruct (log_persisted_before_alert
              (locked_with armed_store "0000") camera_ready
              "data:image/jpeg;base64,/9j/4AAQ"
              eq_refl eq_refl eq_refl eq_refl ltac:(discriminate))
    as (_ & _ & _ & Hlater).
  destruct (Hlater [("1111", camera_ready); ("2222", camera_denied)])
    as (newer & Hn & _).
  exists newer. exact Hn.
Defined.

(** ** The analysis service *)

(** C7 (as amended). [analyzeIntruderImage] returns a string for every
    image and every behaviour of the remote service, and never throws;
    when the service call fails, the string returned is the fixed text
    [Security analysis currently unavailable.] *)
Theorem analyze_always_returns (generateContent : Service) (image : string) :
  (exists text, analyzeIntruderImage generateContent image = Returned text)
  /\ (forall error, generateContent (strip_data_url image) = Thrown error ->
      analyzeIntruderImage generateContent image
      = Returned "Security analysis currently unavailable.").
Proof.
  unfold analyzeIntruderImage.
  destruct (generateContent (strip_data_url image)) as [t|e] eqn:Hg; simpl.
  - split; [eauto | intros error [=]].
  - split; [eauto | reflexivity].
Qed.

Lemma analyze_always_returns_witness :
  analyzeIntruderImage (fun _ => Thrown "fetch failed") "data:image/jpeg;base64,/9j/4AAQ"
  = Returned "Security analysis currently unavailable.".
Proof.
  exact (proj2 (analyze_always_returns (fun _ => Thrown "fetch failed")
                  "data:image/jpeg;base64,/9j/4AAQ") "fetch failed" eq_refl).
Defined.

(** C7, as the specification words it, fails: with a failing service the
    fallback is not the text [analysis unavailable]. *)
Lemma analyze_fallback_text_differs :
  analyzeIntruderImage (fun _ => Thrown "fetch failed") "data:image/jpeg;base64,/9j/4AAQ"
  <> Returned "analysis unavailable".
Proof. vm_compute. discriminate. Qed.

(** ** Startup *)

Lemma load_unreadable {A : Type} (read : JsValue -> option A) (saved : option string) :
  unreadable saved -> load read saved = Skipped \/ load read saved = ParseThrew.
Proof.
  intros [->|(s & -> & Hp)]; [now left|].
  unfold load. rewrite Hp. destruct (truthy (Some s)); [now right|now left].
Qed.

(** C8. Startup completes, and where the stored settings are missing or
    are not JSON the settings are the defaults, where the stored logs are
    missing or are not JSON the list of logs is empty; with a passcode in
    the store the mode is Locked and that passcode is the stored one, with
    none the mode is Setup. (The other of the two JSON values may be
    missing, malformed or well-typed.) *)
Theorem startup_falls_back (storage : gmap string string) :
  typed_or_unreadable asAppSettings (storage !! SETTINGS_STORAGE_KEY) ->
  typed_or_unreadable asLogs (storage !! LOGS_STORAGE_KEY) ->
  exists w,
    mount storage = Some w
    /\ (unreadable (storage !! SETTINGS_STORAGE_KEY) -> settings (ui w) = DEFAULT_SETTINGS)
    /\ (unreadable (storage !! LOGS_STORAGE_KEY) -> logs (ui w) = [])
    /\ (forall p, storage !! PIN_STORAGE_KEY = Some p -> p <> "" ->
        appState (ui w) = LOCKED /\ storedPin (ui w) = Some p)
    /\ (storage !! PIN_STORAGE_KEY = None ->
        appState (ui w) = SETUP /\ storedPin (ui w) = None).
Proof.
  intros Hs Hl. unfold typed_or_unreadable in Hs, Hl. unfold mount, initialization.
  assert (Hpin : forall p, p <> "" -> truthy (Some p) = true)
    by (intros p Hp; apply truthy_Some; eauto).
  pose proof (load_unreadable asAppSettings (storage !! SETTINGS_STORAGE_KEY)) as Us.
  pose proof (load_unreadable asLogs (storage !! LOGS_STORAGE_KEY)) as Ul.
  destruct (load asLogs (storage !! LOGS_STORAGE_KEY)) as [| |ls|v];
    [| | |destruct (Hl v eq_refl)];
  (destruct (load asAppSettings (storage !! SETTINGS_STORAGE_KEY)) as [| |ss|v'];
    [| | |destruct (Hs v' eq_refl)]);
  (destruct (storage !! PIN_STORAGE_KEY) as [p|];
    [destruct (truthy (Some p)) eqn:Ep|]);
  (eexists; split; [reflexivity|]); cbn;
  repeat match goal with
         | |- _ /\ _ => split
         | |- unreadable _ -> _ =>
             let H := fresh in intros H;
             first [reflexivity
                   | destruct (Us H); discriminate
                   | destruct (Ul H); discriminate]
         | |- forall p, Some _ = Some p -> _ =>
             let H := fresh in let Hne := fresh in
             intros ? H Hne; injection H as <-;
             first [split; reflexivity | rewrite (Hpin _ Hne) in Ep; discriminate]
         | |- forall p, None = Some p -> _ => intros ? [=]
         | |- Some _ = None -> _ => intros [=]
         | |- None = None -> _ => intros _
         | |- _ = _ => reflexivity
         end.
Qed.

Lemma startup_falls_back_witness :
  typed_or_unreadable asAppSettings (broken_store !! SETTINGS_STORAGE_KEY)
  /\ typed_or_unreadable asLogs (broken_store !! LOGS_STORAGE_KEY)
  /\ unreadable (broken_store !! SETTINGS_STORAGE_KEY)
  /\ unreadable (broken_store !! LOGS_STORAGE_KEY)
  /\ exists w, mount broken_store = Some w
               /\ settings (ui w) = DEFAULT_SETTINGS
               /\ logs (ui w) = []
               /\ appState (ui w) = LOCKED.
Proof.
  assert (Hs : typed_or_unreadable asAppSettings (broken_store !! SETTINGS_STORAGE_KEY))
    by (intros v H; vm_compute in H; discriminate H).
  assert (Hl : typed_or_unreadable asLogs (broken_store !! LOGS_STORAGE_KEY))
    by (intros v H; vm_compute in H; discriminate H).
  assert (Us : unreadable (broken_store !! SETTINGS_STORAGE_KEY))
    by (right; exists "{oops"; split; reflexivity).
  assert (Ul : unreadable (broken_store !! LOGS_STORAGE_KEY))
    by (left; reflexivity).
  split; [exact Hs|]. split; [exact Hl|]. split; [exact Us|]. split; [exact Ul|].
  destruct (startup_falls_back broken_store Hs Hl) as (w & Hm & Hset & Hlog & Hpin & _).
  exists w. split; [exact Hm|]. split; [exact (Hset Us)|]. split; [exact (Hlog Ul)|].
  apply (Hpin "1234"); [reflexivity|discriminate].
Defined.

(** A passcode key that holds the empty string counts as no passcode. *)
Lemma empty_passcode_is_setup :
  option_map (fun w => appState (ui w)) (mount {[ PIN_STORAGE_KEY := "" ]}) = Some SETUP.
Proof. reflexivity. Qed.

(** JSON of another shape than the declared type is outside this
    embedding. *)
Lemma mount_untyped_settings :
  mount {[ SETTINGS_STORAGE_KEY := "null" ]} = None
  /\ mount {[ LOGS_STORAGE_KEY := "{}" ]} = None.
Proof. split; reflexivity. Qed.

(** ** Invariants of the event loop *)

Lemma play_as_run (ops : list Op) (w : World) : play ops w = run (map Do ops) w.
Proof.
  revert w. induction ops as [|o ops IH]; intros w; [reflexivity|].
  unfold play, run in *. simpl. apply IH.
Qed.

Lemma reachable_mounted (storage : gmap string string) :
  mount storage <> None -> reachable storage (mounted storage).
Proof.
  intros H. apply reach_mount. unfold mounted.
  destruct (mount storage); [reflexivity|contradiction].
Qed.

Lemma reachable_after (storage : gmap string string) (es : list Event) (w : World) :
  reachable storage w -> reachable storage (after w es).
Proof.
  revert w. induction es as [|e es IH]; intros w Hw; [exact Hw|].
  unfold after in *. simpl. apply IH.
  destruct (step w e) as [w'|] eqn:Hs; [|exact Hw].
  exact (reach_step _ _ _ _ Hw Hs).
Qed.

(** A submission on the event loop, with nothing else pending: the check
    resumes, then its timers fire. It ends in the state and the store
    that [submit] gives. *)
Lemma submit_by_events (w : World) (env : Env) :
  tasks w = [] ->
  String.length (inputPin (ui w)) = 4%nat ->
  ui (after (autoSubmit w) [SubmitResumes 0 env; TimerFires 0; TimerFires 0])
  = ui (submit w env)
  /\ localStorage (after (autoSubmit w) [SubmitResumes 0 env; TimerFires 0; TimerFires 0])
     = localStorage (submit w env).
Proof.
  destruct w as [a st ts]. simpl. intros -> Hl.
  unfold autoSubmit, submit, handlePinSubmit, handlePinSubmit_resume. simpl ui.
  rewrite Hl. simpl.
  destruct (appState a).
  - rewrite Hl. split; reflexivity.
  - destruct (pin_matches a); [split; reflexivity|].
    destruct (_ && _); [|split; reflexivity].
    unfold capture_and_log, sendSecurityAlert.
    destruct (captureIntruder a env) as [img|]; [|split; reflexivity].
    destruct (truthy (Some img)); [|split; reflexivity].
    destruct (negb _); split; reflexivity.
  - split; reflexivity.
Qed.

(** *** The threshold *)

Ltac keeps_threshold :=
  repeat (simpl; first [exact I | assumption | apply List.Forall_nil
                       | apply List.Forall_cons]).

Lemma apply_op_threshold (o : Op) (w : World) :
  threshold_invariant w -> op_keeps_threshold o -> threshold_invariant (apply_op o w).
Proof.
  intros [Hs Ht] Ho. split; [|exact Ht].
  destruct o; simpl; auto.
Qed.

Lemma run_threshold (es : list Effect) (w : World) :
  threshold_invariant w ->
  Forall effect_keeps_threshold es ->
  threshold_invariant (run es w).
Proof.
  intros Hw Hes. revert w Hw.
  induction Hes as [|e es He _ IH]; intros w Hw; [exact Hw|].
  unfold run in *. simpl fold_left. apply IH. destruct e as [o|cb ms]; simpl.
  - apply apply_op_threshold; assumption.
  - destruct Hw as [Hs Ht]. split; [exact Hs|]. simpl.
    apply Forall_app. split; [exact Ht|]. constructor; [exact He|constructor].
Qed.

Lemma play_threshold (ops : list Op) (w : World) :
  threshold_invariant w ->
  Forall op_keeps_threshold ops ->
  threshold_invariant (play ops w).
Proof.
  intros Hw Hops. revert w Hw.
  induction Hops as [|o ops Ho _ IH]; intros w Hw; [exact Hw|].
  unfold play in *. simpl. apply IH, apply_op_threshold; assumption.
Qed.

Lemma without_task_threshold (i : nat) (w : World) :
  threshold_invariant w -> threshold_invariant (without_task i w).
Proof.
  intros [Hs Ht]. split; [exact Hs|]. simpl. apply Forall_delete, Ht.
Qed.

Lemma enqueue_threshold (t : Task) (w : World) :
  threshold_invariant w -> task_keeps_threshold t -> threshold_invariant (enqueue t w).
Proof.
  intros [Hs Ht] H. split; [exact Hs|]. simpl.
  apply Forall_app. split; [exact Ht|]. constructor; [exact H|constructor].
Qed.

Lemma resume_keeps_threshold (c : App) (env : Env) :
  Forall effect_keeps_threshold (handlePinSubmit_resume c env).
Proof.
  unfold handlePinSubmit_resume.
  destruct (appState c); [| |constructor].
  - destruct (_ =? _)%nat; keeps_threshold.
  - destruct (pin_matches c); [keeps_threshold|].
    destruct (_ && _); [|keeps_threshold].
    unfold capture_and_log, sendSecurityAlert.
    destruct (captureIntruder c env) as [img|]; [|keeps_threshold].
    destruct (truthy (Some img)); [|keeps_threshold].
    destruct (negb _); keeps_threshold.
Qed.

Lemma autoSubmit_threshold (w : World) :
  threshold_invariant w -> threshold_invariant (autoSubmit w).
Proof.
  intros Hw. unfold autoSubmit. destruct (_ =? _)%nat; [|exact Hw].
  apply enqueue_threshold; [|exact I].
  apply (run_threshold handlePinSubmit_start); [exact Hw|keeps_threshold].
Qed.

Lemma changeSettings_threshold (s : AppSettings) (w : World) :
  threshold_invariant w -> threshold_in_range s -> threshold_invariant (changeSettings s w).
Proof.
  intros Hw Hs. apply run_threshold; [exact Hw|]. keeps_threshold.
Qed.

(** The slider reports a number from 1 to 5. *)
Lemma parseInt_range (value : string) :
  in_list value range_values = true -> 1 <= parseInt value <= 5.
Proof.
  unfold in_list, range_values. simpl existsb.
  repeat match goal with
         | |- context [String.eqb value ?s] =>
             destruct (String.eqb_spec value s) as [->|_];
             [intros _; vm_compute; split; discriminate|]
         end.
  discriminate.
Qed.

Lemma step_threshold (w w' : World) (e : Event) :
  threshold_invariant w -> step w e = Some w' -> threshold_invariant w'.
Proof.
  intros Hw. destruct e; unfold step; cbv beta iota zeta.
  - destruct (_ && _); intros [= <-]. unfold handleKeyPress.
    destruct (_ <? _)%nat; [|exact Hw].
    apply autoSubmit_threshold, apply_op_threshold; [exact Hw|exact I].
  - destruct (keypad_enabled _); intros [= <-]. unfold handleDelete.
    destruct (String.eqb _ _); [exact Hw|].
    apply autoSubmit_threshold, apply_op_threshold; [exact Hw|exact I].
  - destruct (tasks w !! i) as [[| c |]|] eqn:Ht; intros [= <-].
    apply (run_threshold (handlePinSubmit_resume c env));
      [apply without_task_threshold, Hw|apply resume_keeps_threshold].
  - destruct (tasks w !! i) as [[cb ms | |]|] eqn:Ht; intros [= <-].
    apply (play_threshold cb); [apply without_task_threshold, Hw|].
    destruct Hw as [_ Hts]. rewrite Forall_lookup in Hts.
    apply (Hts _ _ Ht).
  - destruct (is_unlocked _); intros [= <-].
    apply apply_op_threshold; [exact Hw|exact I].
  - destruct (is_unlocked _); intros [= <-].
    apply apply_op_threshold; [exact Hw|exact I].
  - destruct (_ && _); intros [= <-].
    apply apply_op_threshold; [exact Hw|exact I].
  - destruct (is_unlocked _ && showSettings _); [|discriminate].
    destruct (in_list value range_values) eqn:Hv; intros [= <-].
    apply changeSettings_threshold; [exact Hw|].
    apply parseInt_range, Hv.
  - destruct (_ && _); intros [= <-].
    apply changeSettings_threshold; [exact Hw|apply Hw].
  - destruct (_ && _); intros [= <-].
    apply changeSettings_threshold; [exact Hw|apply Hw].
  - destruct (_ && _); intros [= <-].
    apply enqueue_threshold; [|exact I].
    apply (run_threshold (handleAnalyze_start log)); [exact Hw|keeps_threshold].
  - destruct (tasks w !! i) as [[| | c l]|] eqn:Ht; try discriminate.
    destruct (analyzeIntruderImage _ _); intros [= <-].
    + apply (run_threshold (handleAnalyze_resume c l a));
        [apply without_task_threshold, Hw|keeps_threshold].
    + apply without_task_threshold, Hw.
  - intros [= <-]. apply apply_op_threshold; [exact Hw|exact I].
Qed.

Lemma mount_threshold (storage : gmap string string) (w : World) :
  stored_threshold_in_range storage -> mount storage = Some w -> threshold_invariant w.
Proof.
  intros Hst. unfold mount.
  destruct (initialization storage) as [es|] eqn:Hi; intros [= <-].
  assert (H0 : threshold_invariant
                 (run es {| ui := initialApp; localStorage := storage; tasks := [] |})).
  { apply run_threshold.
    - split; [unfold threshold_in_range; simpl; lia|constructor].
    - unfold initialization in Hi. unfold stored_threshold_in_range in Hst.
      destruct (load asLogs _) as [| |ls|v]; try discriminate;
      destruct (load asAppSettings _) as [| |ss|v']; try discriminate;
      injection Hi as <-;
      (destruct (storage !! PIN_STORAGE_KEY) as [p|];
        [destruct (truthy (Some p))|]); keeps_threshold;
      apply Hst; reflexivity. }
  assert (H1 : forall s w0, threshold_invariant w0 ->
                            threshold_invariant (run (saveSettings s) w0)).
  { intros s w0 Hw0. apply run_threshold; [exact Hw0|keeps_threshold]. }
  destruct (load asAppSettings _); auto.
Qed.

(** C9 (as amended). The default threshold is 1, the slider yields a
    number from 1 to 5 and the other settings controls keep the threshold;
    initialization takes a stored settings object as it is. So the
    threshold is in [1,5] in every state the component reaches, provided
    the settings found in the store at startup, if they load, hold a
    threshold in [1,5]. *)
Theorem threshold_stays_in_range (storage : gmap string string) (w : World) :
  stored_threshold_in_range storage ->
  reachable storage w ->
  1 <= triggerThreshold (settings (ui w)) <= 5.
Proof.
  intros Hst Hr.
  assert (Hinv : threshold_invariant w).
  { induction Hr as [w Hm|w e w' _ IH Hs].
    - exact (mount_threshold _ _ Hst Hm).
    - exact (step_threshold _ _ _ IH Hs). }
  apply Hinv.
Qed.

Lemma threshold_stays_in_range_witness :
  stored_threshold_in_range tuned_store
  /\ reachable tuned_store (after (mounted tuned_store) slider_session)
  /\ triggerThreshold (settings (ui (after (mounted tuned_store) slider_session))) = 5
  /\ 1 <= triggerThreshold (settings (ui (after (mounted tuned_store) slider_session))) <= 5.
Proof.
  assert (Hst : stored_threshold_in_range tuned_store).
  { intros s H. vm_compute in H. injection H as <-.
    unfold threshold_in_range. simpl. lia. }
  assert (Hr : reachable tuned_store (after (mounted tuned_store) slider_session)).
  { apply reachable_after, reachable_mounted. vm_compute. discriminate. }
  split; [exact Hst|]. split; [exact Hr|]. split; [vm_compute; reflexivity|].
  exact (threshold_stays_in_range tuned_store _ Hst Hr).
Defined.

(** C9, as the specification words it, fails at initialization: a stored
    settings object with threshold 9 is loaded as it is. *)
Lemma stored_threshold_unchecked :
  exists w, mount oversized_store = Some w
            /\ triggerThreshold (settings (ui w)) = 9
            /\ ~ (1 <= triggerThreshold (settings (ui w)) <= 5).
Proof.
  eexists. split; [vm_compute; reflexivity|]. split; [reflexivity|].
  intros [_ H]. vm_compute in H. apply H. reflexivity.
Qed.

(** *** The passcode *)

Lemma pin_safe_mono (ops : list Op) : pin_safe false ops = true -> pin_safe true ops = true.
Proof.
  induction ops as [|o ops IH]; simpl; [reflexivity|].
  destruct o as [[]| | | | | | | | | | | | | | | |]; simpl; auto; discriminate.
Qed.

Lemma pin_safe_weaken (h h' : bool) (ops : list Op) :
  (h = true -> h' = true) -> pin_safe h ops = true -> pin_safe h' ops = true.
Proof.
  destruct h, h'; intros H; auto using pin_safe_mono. discriminate (H eq_refl).
Qed.

Lemma task_pin_safe_weaken (a a' : App) (t : Task) :
  (has_pin a = true -> has_pin a' = true) ->
  task_pin_safe a t -> task_pin_safe a' t.
Proof.
  intros H. destruct t as [cb ms|c|c l]; simpl; [|tauto|tauto].
  apply pin_safe_weaken. exact H.
Qed.

Lemma has_pin_set (o : Op) (a : App) : has_pin a = true -> has_pin (set o a) = true.
Proof. destruct o; simpl; auto. Qed.

Lemma apply_op_pin_invariant (o : Op) (w : World) :
  passcode_invariant w ->
  pin_safe (has_pin (ui w)) [o] = true ->
  passcode_invariant (apply_op o w).
Proof.
  intros [Hp Ht] Hs. split.
  - intros Hne. destruct o as [x| | | | | | | | | | | | | | | |];
      try (apply has_pin_set, Hp; exact Hne).
    apply has_pin_set. destruct x; simpl in Hs, Hne;
      [contradiction| |]; apply andb_true_iff in Hs; tauto.
  - simpl. eapply Forall_impl; [exact Ht|].
    intros t. apply task_pin_safe_weaken, has_pin_set.
Qed.

Lemma enqueue_pin_invariant (t : Task) (w : World) :
  passcode_invariant w -> task_pin_safe (ui w) t -> passcode_invariant (enqueue t w).
Proof.
  intros [Hp Ht] Hs. split; [exact Hp|]. simpl.
  apply Forall_app. split; [exact Ht|]. constructor; [exact Hs|constructor].
Qed.

Lemma without_task_pin_invariant (i : nat) (w : World) :
  passcode_invariant w -> passcode_invariant (without_task i w).
Proof.
  intros [Hp Ht]. split; [exact Hp|]. simpl. apply Forall_delete. exact Ht.
Qed.

Lemma run_pin_invariant (es : list Effect) (w : World) :
  passcode_invariant w ->
  effects_pin_safe (has_pin (ui w)) es = true ->
  passcode_invariant (run es w).
Proof.
  revert w. induction es as [|e es IH]; intros w Hw Hs; [exact Hw|].
  unfold run in *. simpl fold_left. destruct e as [o|cb ms].
  - apply IH.
    + apply apply_op_pin_invariant; [exact Hw|].
      destruct o as [[]| | | | | | | | | | | | | | | |]; simpl in *; auto;
        apply andb_true_iff in Hs as [-> _]; reflexivity.
    + destruct o as [[]| | | | | | | | | | | | | | | |]; simpl in *; auto;
        try (apply andb_true_iff in Hs as [_ Hs]);
        try (eapply eq_trans; [|exact Hs]; f_equal).
      all: destruct (has_pin (ui w)); try reflexivity.
  - simpl in Hs. apply andb_true_iff in Hs as [Hc Hs].
    apply IH; [|exact Hs]. simpl. apply enqueue_pin_invariant; assumption.
Qed.

Lemma effects_pin_safe_Do (has : bool) (ops : list Op) :
  effects_pin_safe has (map Do ops) = pin_safe has ops.
Proof.
  revert has. induction ops as [|o ops IH]; intros has; [reflexivity|].
  destruct o as [[]| | | | | | | | | | | | | | | |]; simpl; rewrite IH; reflexivity.
Qed.

Lemma play_pin_invariant (ops : list Op) (w : World) :
  passcode_invariant w ->
  pin_safe (has_pin (ui w)) ops = true ->
  passcode_invariant (play ops w).
Proof.
  intros Hw Hs. rewrite play_as_run. apply run_pin_invariant; [exact Hw|].
  rewrite effects_pin_safe_Do. exact Hs.
Qed.

Lemma resume_pin_safe (c : App) (env : Env) (has : bool) :
  (appState c <> SETUP -> has = true) ->
  effects_pin_safe has (handlePinSubmit_resume c env) = true.
Proof.
  intros H. unfold handlePinSubmit_resume.
  destruct (appState c); [| |reflexivity].
  - destruct (_ =? _)%nat; reflexivity.
  - rewrite H by discriminate.
    destruct (pin_matches c); [reflexivity|].
    destruct (_ && _); [|reflexivity].
    unfold capture_and_log, sendSecurityAlert.
    destruct (captureIntruder c env) as [img|]; [|reflexivity].
    destruct (truthy (Some img)); [|reflexivity].
    destruct (negb _); reflexivity.
Qed.

Lemma autoSubmit_pin_invariant (w : World) :
  passcode_invariant w -> passcode_invariant (autoSubmit w).
Proof.
  intros Hw. unfold autoSubmit. destruct (_ =? _)%nat; [|exact Hw].
  apply enqueue_pin_invariant.
  - apply run_pin_invariant; [exact Hw|reflexivity].
  - intros Hne. destruct Hw as [Hp _]. split; [apply Hp, Hne|].
    apply has_pin_set, Hp, Hne.
Qed.

Lemma changeSettings_pin_invariant (s : AppSettings) (w : World) :
  passcode_invariant w -> passcode_invariant (changeSettings s w).
Proof. intros Hw. apply run_pin_invariant; [exact Hw|reflexivity]. Qed.

Lemma step_pin_invariant (w w' : World) (e : Event) :
  passcode_invariant w -> step w e = Some w' -> passcode_invariant w'.
Proof.
  intros Hw. destruct e; unfold step; cbv beta iota zeta.
  - destruct (_ && _); intros [= <-]. unfold handleKeyPress.
    destruct (_ <? _)%nat; [|exact Hw].
    apply autoSubmit_pin_invariant, apply_op_pin_invariant; [exact Hw|reflexivity].
  - destruct (keypad_enabled _); intros [= <-]. unfold handleDelete.
    destruct (String.eqb _ _); [exact Hw|].
    apply autoSubmit_pin_invariant, apply_op_pin_invariant; [exact Hw|reflexivity].
  - destruct (tasks w !! i) as [[| c |]|] eqn:Ht; intros [= <-].
    apply run_pin_invariant; [apply without_task_pin_invariant, Hw|].
    apply resume_pin_safe. intros Hne.
    destruct Hw as [_ Hts]. rewrite Forall_lookup in Hts.
    apply (Hts _ _ Ht), Hne.
  - destruct (tasks w !! i) as [[cb ms | |]|] eqn:Ht; intros [= <-].
    apply play_pin_invariant; [apply without_task_pin_invariant, Hw|].
    destruct Hw as [_ Hts]. rewrite Forall_lookup in Hts.
    apply (Hts _ _ Ht).
  - unfold is_unlocked. destruct (appState (ui w)) eqn:Hm; intros [= <-].
    apply apply_op_pin_invariant; [exact Hw|].
    simpl. destruct Hw as [Hp _]. rewrite Hp; [reflexivity|congruence].
  - destruct (is_unlocked _); intros [= <-].
    apply apply_op_pin_invariant; [exact Hw|reflexivity].
  - destruct (_ && _); intros [= <-].
    apply apply_op_pin_invariant; [exact Hw|reflexivity].
  - destruct (_ && _); intros [= <-]. apply changeSettings_pin_invariant, Hw.
  - destruct (_ && _); intros [= <-]. apply changeSettings_pin_invariant, Hw.
  - destruct (_ && _); intros [= <-]. apply changeSettings_pin_invariant, Hw.
  - destruct (_ && _); intros [= <-].
    apply enqueue_pin_invariant; [|exact I].
    apply (run_pin_invariant (handleAnalyze_start log)); [exact Hw|reflexivity].
  - destruct (tasks w !! i) as [[| | c l]|] eqn:Ht; try discriminate.
    destruct (analyzeIntruderImage _ _); intros [= <-].
    + apply (run_pin_invariant (handleAnalyze_resume c l a));
        [apply without_task_pin_invariant, Hw|reflexivity].
    + apply without_task_pin_invariant, Hw.
  - intros [= <-]. apply apply_op_pin_invariant; [exact Hw|reflexivity].
Qed.

Lemma mount_pin_invariant (storage : gmap string string) (w : World) :
  mount storage = Some w -> passcode_invariant w.
Proof.
  unfold mount. destruct (initialization storage) as [es|] eqn:Hi; intros [= <-].
  assert (H0 : passcode_invariant
                 (run es {| ui := initialApp; localStorage := storage; tasks := [] |})).
  { apply run_pin_invariant.
    - split; [intros H; now elim H|constructor].
    - unfold initialization in Hi.
      destruct (load asLogs _) as [| |ls|v]; try discriminate;
      destruct (load asAppSettings _) as [| |ss|v']; try discriminate;
      injection Hi as <-;
      (destruct (storage !! PIN_STORAGE_KEY) as [p|];
        [destruct (truthy (Some p))|]); reflexivity. }
  assert (H1 : forall s w0, passcode_invariant w0 ->
                            passcode_invariant (run (saveSettings s) w0)).
  { intros s w0 Hw0. apply run_pin_invariant; [exact Hw0|reflexivity]. }
  destruct (load asAppSettings _); auto.
Qed.

Lemma reachable_pin_invariant (storage : gmap string string) (w : World) :
  reachable storage w -> passcode_invariant w.
Proof.
  induction 1 as [w Hm|w e w' _ IH Hs].
  - exact (mount_pin_invariant _ _ Hm).
  - exact (step_pin_invariant _ _ _ IH Hs).
Qed.

(** C10. In every state the component reaches, a mode of Locked or
    Unlocked comes with a stored passcode; and every submission waiting
    for its check that was made from the locked screen carries a stored
    passcode, so that the comparison in Locked mode has a passcode to
    compare with. *)
Theorem locked_implies_passcode (storage : gmap string string) (w : World) :
  reachable storage w ->
  (appState (ui w) = LOCKED \/ appState (ui w) = UNLOCKED ->
   exists p, storedPin (ui w) = Some p)
  /\ (forall i c, tasks w !! i = Some (SubmitAwait c) ->
      appState c = LOCKED ->
      exists p, storedPin c = Some p).
Proof.
  intros Hr. destruct (reachable_pin_invariant _ _ Hr) as [Hp Hts].
  assert (Hhas : forall a, has_pin a = true -> exists p, storedPin a = Some p).
  { intros a. unfold has_pin. destruct (storedPin a); [eauto|discriminate]. }
  split.
  - intros Hm. apply Hhas, Hp. destruct Hm; congruence.
  - intros i c Hi Hm. apply Hhas. rewrite Forall_lookup in Hts.
    apply (Hts _ _ Hi). congruence.
Qed.

Lemma locked_implies_passcode_witness :
  reachable armed_store (after (mounted armed_store) wrong_pin_typed)
  /\ appState (ui (after (mounted armed_store) wrong_pin_typed)) = LOCKED
  /\ (exists c, tasks (after (mounted armed_store) wrong_pin_typed) !! 0%nat
                = Some (SubmitAwait c) /\ appState c = LOCKED)
  /\ exists p, storedPin (ui (after (mounted armed_store) wrong_pin_typed)) = Some p.
Proof.
  assert (Hr : reachable armed_store (after (mounted armed_store) wrong_pin_typed)).
  { apply reachable_after, reachable_mounted. vm_compute. discriminate. }
  split; [exact Hr|]. split; [reflexivity|].
  split; [eexists; split; reflexivity|].
  apply (proj1 (locked_implies_passcode armed_store _ Hr)). left. reflexivity.
Defined.

(** ** Scenarios *)

(** Threshold 1, passcode 1234: a wrong pin leaves one log with attempt
    number 1; the right pin then unlocks and resets the counter. *)
Example scenario_threshold_one :
  let w1 := attempts (locked_with armed_store "") [("0000", camera_ready)] in
  let w2 := attempts w1 [("1234", camera_ready)] in
  map attemptNumber (logs (ui w1)) = [1]
  /\ appState (ui w2) = UNLOCKED
  /\ sessionFailedAttempts (ui w2) = 0.
Proof. vm_compute. repeat split. Qed.

(** Threshold 3: two wrong pins leave the counter at 2 and no log; the
    third leaves it at 3 and one log with attempt number 3; the fourth
    adds a log with attempt number 4 in front. *)
Example scenario_threshold_three :
  let w2 := attempts (locked_with tuned_store "")
              [("1111", camera_ready); ("2222", camera_ready)] in
  let w3 := attempts w2 [("3333", camera_ready)] in
  let w4 := attempts w3 [("4444", camera_ready)] in
  sessionFailedAttempts (ui w2) = 2 /\ logs (ui w2) = []
  /\ sessionFailedAttempts (ui w3) = 3 /\ map attemptNumber (logs (ui w3)) = [3]
  /\ map attemptNumber (logs (ui w4)) = [4; 3].
Proof. vm_compute. repeat split. Qed.

(** The same failed attempt, event by event: four keys, the check, the
    1000 ms timer. The state it ends in is the one [submit] gives. *)
Example scenario_by_events :
  ui (after (mounted armed_store)
        [CameraChange true;
         KeyPress "0"; KeyPress "0"; KeyPress "0"; KeyPress "0";
         SubmitResumes 0 camera_ready; TimerFires 0])
  = ui (submit (locked_with armed_store "0000") camera_ready).
Proof. vm_compute. reflexivity. Qed.

(** What the store holds after that attempt reads back as the list of
    logs. *)
Example persisted_logs_read_back :
  let w := submit (locked_with armed_store "0000") camera_ready in
  load asLogs (localStorage w !! LOGS_STORAGE_KEY) = Typed (logs (ui w)).
Proof. vm_compute. reflexivity. Qed.

(** * Further properties *)

(** ** What is written is read back *)

Lemma uchars_digits (d : Decimal.uint) : forallb is_digit (uchars d) = true.
Proof. induction d; simpl; auto. Qed.

Lemma span_digits_all (cs : list ascii) :
  forallb is_digit cs = true -> span_digits cs = (cs, []).
Proof.
  induction cs as [|c cs IH]; simpl; [reflexivity|].
  intros H. apply andb_true_iff in H as [Hc Hcs].
  rewrite Hc, (IH Hcs). reflexivity.
Qed.

Lemma digits_acc (d : Decimal.uint) (acc : positive) :
  fold_left digit_step (uchars d) (Z.pos acc) = Z.pos (Pos.of_uint_acc d acc).
Proof.
  revert acc. induction d; intros acc; simpl; [reflexivity|..];
    unfold uchars in IHd; unfold digit_step at 2; simpl Z.of_N;
    match goal with
    | |- fold_left _ _ ?z = _ =>
        match goal with
        | |- context [Pos.of_uint_acc d ?q] =>
            replace z with (Z.pos q) by lia
        end
    end; apply IHd.
Qed.

Lemma digits_value_uint (d : Decimal.uint) :
  digits_value (uchars d) = Z.of_N (Pos.of_uint d).
Proof.
  unfold digits_value. change (fun a d => 10 * a + Z.of_N (code d - 48)) with digit_step.
  induction d; simpl; [reflexivity|exact IHd|..];
    unfold digit_step at 2; simpl; apply digits_acc.
Qed.

Lemma int_part_ok_uint (d : Decimal.uint) :
  d <> Decimal.Nil ->
  (forall d', d = Decimal.D0 d' -> d' = Decimal.Nil) ->
  int_part_ok (uchars d) = true.
Proof.
  intros Hn Hz. destruct d as [|d'| | | | | | | | |]; try contradiction; simpl;
    try (destruct (list_ascii_of_string _); reflexivity).
  pose proof (Hz d' eq_refl) as E. subst d'. reflexivity.
Qed.

Lemma to_uint_no_leading_zero (p : positive) (d' : Decimal.uint) :
  Pos.to_uint p = Decimal.D0 d' -> d' = Decimal.Nil.
Proof.
  intros H. exfalso.
  pose proof (Unsigned.to_of (Pos.to_uint p)) as Hn.
  rewrite Unsigned.of_to in Hn. simpl in Hn.
  pose proof (Unsigned.to_uint_nonzero p) as Hz.
  rewrite H in Hn, Hz. unfold Decimal.unorm in Hn. simpl in Hn.
  destruct (Decimal.nzhead d') eqn:Hh; try discriminate Hn.
  - injection Hn as Hd. subst d'. now apply Hz.
  - injection Hn as Hd. subst d'. exact (nzhead_nonzero _ _ Hh).
Qed.

Lemma number_value_uint (p : positive) (neg : bool) :
  number_value ((if neg then String "-" else fun s => s)
                  (NilEmpty.string_of_uint (Pos.to_uint p)))
  = Some (JNum (if neg then Z.neg p else Z.pos p)).
Proof.
  set (d := Pos.to_uint p).
  assert (Hn : d <> Decimal.Nil) by apply Unsigned.to_uint_nonnil.
  assert (Hz : forall d', d = Decimal.D0 d' -> d' = Decimal.Nil)
    by apply to_uint_no_leading_zero.
  assert (Hf : exists c cs, uchars d = c :: cs /\ is_digit c = true).
  { pose proof (uchars_digits d) as H. destruct (uchars d) as [|c cs] eqn:E.
    - destruct d; try contradiction; discriminate E.
    - simpl in H. apply andb_true_iff in H as [Hc _]. eauto. }
  destruct Hf as (c & cs & Hcs & Hc).
  assert (Hm : (code c =? 45)%N = false).
  { unfold is_digit in Hc. apply andb_true_iff in Hc as [H1 _].
    apply N.leb_le in H1. apply N.eqb_neq. lia. }
  assert (Hv : digits_value (uchars d) = Z.pos p).
  { rewrite digits_value_uint. unfold d. rewrite Unsigned.of_to. reflexivity. }
  unfold number_value. destruct neg.
  - simpl list_ascii_of_string. fold (uchars d). simpl.
    rewrite (span_digits_all _ (uchars_digits d)), (int_part_ok_uint d Hn Hz), Hv.
    reflexivity.
  - fold (uchars d). rewrite Hcs, Hm, <- Hcs.
    rewrite (span_digits_all _ (uchars_digits d)), (int_part_ok_uint d Hn Hz), Hv.
    reflexivity.
Qed.

Lemma number_value_text (n : Z) : number_value (number_text n) = Some (JNum n).
Proof.
  destruct n as [|p|p]; [reflexivity| |].
  - unfold number_text. simpl.
    pose proof (Unsigned.to_uint_nonnil p).
    replace (NilZero.string_of_uint (Pos.to_uint p))
      with (NilEmpty.string_of_uint (Pos.to_uint p))
      by (destruct (Pos.to_uint p); try reflexivity; contradiction).
    exact (number_value_uint p false).
  - unfold number_text. simpl.
    pose proof (Unsigned.to_uint_nonnil p).
    replace (NilZero.string_of_uint (Pos.to_uint p))
      with (NilEmpty.string_of_uint (Pos.to_uint p))
      by (destruct (Pos.to_uint p); try reflexivity; contradiction).
    exact (number_value_uint p true).
Qed.

Lemma chars_app (a b : string) :
  list_ascii_of_string (a +:+ b) = list_ascii_of_string a ++ list_ascii_of_string b.
Proof. induction a as [|c a IH]; simpl; [reflexivity|]. now rewrite IH. Qed.

Lemma lex_escaped_char (c : ascii) (acc : list ascii) (out : list Token) (rest : list ascii) :
  lex (InString acc) out (escape_char c ++ rest) = lex (InString (c :: acc)) out rest.
Proof.
  destruct c as [[] [] [] [] [] [] [] []]; reflexivity.
Qed.

Lemma lex_escaped (cs acc : list ascii) (out : list Token) (rest : list ascii) :
  lex (InString acc) out (flat_map escape_char cs ++ dquote :: rest)
  = lex Between (TString (text (rev cs ++ acc)) :: out) rest.
Proof.
  revert acc. induction cs as [|c cs IH]; intros acc.
  - reflexivity.
  - simpl flat_map. rewrite <- app_assoc, lex_escaped_char, IH.
    simpl rev. rewrite <- app_assoc. reflexivity.
Qed.

Lemma lex_quote (s : string) (out : list Token) (rest : list ascii) :
  lex Between out (list_ascii_of_string (quote s) ++ rest)
  = lex Between (TString s :: out) rest.
Proof.
  unfold quote. rewrite list_ascii_of_string_of_list_ascii.
  change ((dquote :: flat_map escape_char (list_ascii_of_string s) ++ [dquote]) ++ rest)
    with (dquote :: (flat_map escape_char (list_ascii_of_string s) ++ [dquote]) ++ rest).
  rewrite <- app_assoc. simpl app.
  change (lex Between out (dquote :: ?x)) with (lex (InString []) out x).
  transitivity (lex (InString []) out
                  (flat_map escape_char (list_ascii_of_string s) ++ dquote :: rest));
    [reflexivity|].
  rewrite lex_escaped, app_nil_r. unfold text.
  rewrite rev_involutive, string_of_list_ascii_of_string. reflexivity.
Qed.

Lemma lex_number_tail (cs acc : list ascii) (d : ascii) (out : list Token) (rest : list ascii) :
  forallb is_numchar cs = true ->
  is_numchar d = false ->
  lex (InNumber acc) out (cs ++ d :: rest)
  = lex Between (TNumber (text (rev cs ++ acc)) :: out) (d :: rest).
Proof.
  intros Hcs Hd. revert acc. induction cs as [|c cs IH]; intros acc.
  - simpl. rewrite Hd. reflexivity.
  - simpl in Hcs. apply andb_true_iff in Hcs as [Hc Hcs].
    simpl. rewrite Hc, (IH Hcs), <- app_assoc. reflexivity.
Qed.

Lemma lex_between_digit (c : ascii) (out : list Token) :
  is_digit c || (code c =? 45)%N = true ->
  lex_between c out = Some (InNumber [c], out).
Proof.
  destruct c as [[] [] [] [] [] [] [] []]; intros H; try discriminate H; reflexivity.
Qed.

Lemma is_digit_numchar (c : ascii) : is_digit c = true -> is_numchar c = true.
Proof. unfold is_numchar. now intros ->. Qed.

Lemma number_text_chars (n : Z) :
  exists c cs,
    list_ascii_of_string (number_text n) = c :: cs
    /\ is_digit c || (code c =? 45)%N = true
    /\ forallb is_numchar cs = true.
Proof.
  assert (Hu : forall p, exists c cs,
             uchars (Pos.to_uint p) = c :: cs /\ is_digit c = true
             /\ forallb is_numchar cs = true).
  { intros p. pose proof (uchars_digits (Pos.to_uint p)) as H.
    pose proof (Unsigned.to_uint_nonnil p) as Hn.
    destruct (uchars (Pos.to_uint p)) as [|c cs] eqn:E.
    - destruct (Pos.to_uint p); try contradiction; discriminate E.
    - simpl in H. apply andb_true_iff in H as [Hc Hcs].
      exists c, cs. split; [reflexivity|]. split; [exact Hc|].
      clear E. induction cs as [|x cs IH]; [reflexivity|].
      simpl in *. apply andb_true_iff in Hcs as [Hx Hcs].
      rewrite (is_digit_numchar _ Hx). auto. }
  assert (He : forall p, NilZero.string_of_uint (Pos.to_uint p)
                         = NilEmpty.string_of_uint (Pos.to_uint p)).
  { intros p. pose proof (Unsigned.to_uint_nonnil p).
    destruct (Pos.to_uint p); try reflexivity; contradiction. }
  destruct n as [|p|p]; unfold number_text; simpl.
  - exists "0"%char, []. repeat split.
  - rewrite He. destruct (Hu p) as (c & cs & E & Hc & Hcs).
    exists c, cs. split; [exact E|]. split; [now rewrite Hc|exact Hcs].
  - rewrite He. destruct (Hu p) as (c & cs & E & Hc & Hcs).
    exists "-"%char, (c :: cs).
    split; [simpl; unfold uchars in E; now rewrite E|]. split; [reflexivity|].
    simpl. rewrite (is_digit_numchar _ Hc). exact Hcs.
Qed.

Lemma lex_number (n : Z) (d : ascii) (out : list Token) (rest : list ascii) :
  is_numchar d = false ->
  lex Between out (list_ascii_of_string (number_text n) ++ d :: rest)
  = lex Between (TNumber (number_text n) :: out) (d :: rest).
Proof.
  intros Hd. destruct (number_text_chars n) as (c & cs & E & Hc & Hcs).
  rewrite E. simpl app.
  transitivity (lex (InNumber [c]) out (cs ++ d :: rest)).
  { simpl. rewrite (lex_between_digit c out Hc). reflexivity. }
  rewrite (lex_number_tail cs [c] d out rest Hcs Hd). unfold text.
  rewrite rev_app_distr, rev_involutive. change (rev [c] ++ cs) with (c :: cs).
  rewrite <- E.
  rewrite string_of_list_ascii_of_string. reflexivity.
Qed.

Ltac lex_steps :=
  repeat first
    [ progress change (lex Between ?o ("{"%char :: ?x)) with (lex Between (TLBrace :: o) x)
    | progress change (lex Between ?o ("}"%char :: ?x)) with (lex Between (TRBrace :: o) x)
    | progress change (lex Between ?o ("["%char :: ?x)) with (lex Between (TLBracket :: o) x)
    | progress change (lex Between ?o ("]"%char :: ?x)) with (lex Between (TRBracket :: o) x)
    | progress change (lex Between ?o (":"%char :: ?x)) with (lex Between (TColon :: o) x)
    | progress change (lex Between ?o (","%char :: ?x)) with (lex Between (TComma :: o) x)
    | rewrite lex_quote
    | rewrite lex_number by reflexivity ].

Ltac chars_normal :=
  rewrite ?chars_app;
  change (list_ascii_of_string "{") with ["{"%char];
  change (list_ascii_of_string ":") with [":"%char];
  change (list_ascii_of_string ",") with [","%char];
  change (list_ascii_of_string "}") with ["}"%char];
  rewrite <- ?app_assoc; cbn [app].

Lemma lex_settings (s : AppSettings) :
  lex Between [] (list_ascii_of_string (stringify (settings_json s)))
  = Some (settings_tokens s).
Proof.
  destruct s as [e t c]. unfold settings_json, settings_tokens.
  cbn [stringify map join fst snd alertEmail triggerThreshold enableCapture].
  chars_normal. lex_steps. destruct c; reflexivity.
Qed.

Lemma parse_settings (s : AppSettings) :
  parse (stringify (settings_json s)) = Some (settings_json s).
Proof.
  unfold parse. rewrite lex_settings. destruct s as [e t c].
  unfold settings_tokens, settings_json.
  cbn [parse_tokens parse_token wants_value deliver alertEmail triggerThreshold
       enableCapture].
  rewrite number_value_text. destruct c; reflexivity.
Qed.

Lemma asAppSettings_json (s : AppSettings) : asAppSettings (settings_json s) = Some s.
Proof. destruct s; reflexivity. Qed.

Lemma load_settings_json (s : AppSettings) :
  load asAppSettings (Some (stringify (settings_json s))) = Typed s.
Proof.
  unfold load. rewrite parse_settings, asAppSettings_json.
  replace (truthy (Some (stringify (settings_json s)))) with true; [reflexivity|].
  symmetry. apply truthy_Some. eexists. split; [reflexivity|].
  destruct s. discriminate.
Qed.

Lemma lex_log (l : IntruderLog) (out : list Token) (rest : list ascii) :
  lex Between out (list_ascii_of_string (stringify (log_json l)) ++ rest)
  = lex Between (rev (log_tokens l) ++ out) rest.
Proof.
  destruct l as [i t d n [a|]]; unfold log_json, log_tokens;
    cbn [stringify map join fst snd app id timestamp imageData attemptNumber aiAnalysis];
    chars_normal; lex_steps; reflexivity.
Qed.

Lemma lex_logs (ls : list IntruderLog) (out : list Token) (rest : list ascii) :
  lex Between out
    (list_ascii_of_string (join "," (map stringify (map log_json ls))) ++ rest)
  = lex Between (rev (logs_tokens ls) ++ out) rest.
Proof.
  revert out. induction ls as [|l ls IH]; intros out; [reflexivity|].
  destruct ls as [|l' ls].
  - simpl map. simpl join. apply lex_log.
  - change (join "," (map stringify (map log_json (l :: l' :: ls))))
      with (stringify (log_json l) +:+ "," +:+
            join "," (map stringify (map log_json (l' :: ls)))).
    rewrite !chars_app, <- !app_assoc, lex_log.
    change (list_ascii_of_string "," ++ ?x) with (","%char :: x).
    lex_steps. rewrite IH.
    change (logs_tokens (l :: l' :: ls))
      with (log_tokens l ++ TComma :: logs_tokens (l' :: ls)).
    rewrite rev_app_distr. simpl rev. rewrite <- !app_assoc. reflexivity.
Qed.

Lemma parse_log (l : IntruderLog) (stack : list Frame) (e : Expect) (ts : list Token) :
  wants_value e = true ->
  parse_tokens stack e (log_tokens l ++ ts)
  = match deliver (log_json l) stack with
    | Some (stack', e') => parse_tokens stack' e' ts
    | None => None
    end.
Proof.
  intros He. destruct l as [i t d n [a|]]; unfold log_tokens, log_json;
    cbn [app id timestamp imageData attemptNumber aiAnalysis];
    (destruct e; try discriminate He);
    cbn [parse_tokens parse_token wants_value deliver];
    rewrite !number_value_text; reflexivity.
Qed.

Lemma parse_elements (ls : list IntruderLog) (l : IntruderLog) (vs : list JsValue)
    (e : Expect) :
  wants_value e = true ->
  parse_tokens [FArr vs] e (logs_tokens (l :: ls) ++ [TRBracket])
  = Some (JArr (rev vs ++ map log_json (l :: ls))).
Proof.
  revert l vs e. induction ls as [|l' ls IH]; intros l vs e He.
  - simpl logs_tokens. rewrite (parse_log l _ _ _ He). simpl.
    reflexivity.
  - change (logs_tokens (l :: l' :: ls))
      with (log_tokens l ++ TComma :: logs_tokens (l' :: ls)).
    rewrite <- app_assoc, (parse_log l _ _ _ He).
    cbn [deliver app parse_tokens parse_token].
    rewrite (IH l' (log_json l :: vs) EValue eq_refl). simpl rev.
    rewrite <- app_assoc. reflexivity.
Qed.

Lemma parse_logs (ls : list IntruderLog) :
  parse (stringify (logs_json ls)) = Some (logs_json ls).
Proof.
  unfold parse, logs_json. cbn [stringify]. rewrite !chars_app.
  change (list_ascii_of_string "[") with ["["%char].
  change (list_ascii_of_string "]") with ["]"%char].
  cbn [app]. lex_steps. rewrite lex_logs.
  change (lex Between ?o ["]"%char]) with (Some (rev (TRBracket :: o))).
  simpl rev. rewrite rev_app_distr, rev_involutive. simpl app.
  destruct ls as [|l ls]; [reflexivity|].
  change (parse_tokens [] EValue (TLBracket :: ?x))
    with (parse_tokens [FArr []] EValueOrClose x).
  apply (parse_elements ls l [] EValueOrClose eq_refl).
Qed.

Lemma asIntruderLog_json (l : IntruderLog) : asIntruderLog (log_json l) = Some l.
Proof. destruct l as [i t d n [a|]]; reflexivity. Qed.

Lemma asLogs_json (ls : list IntruderLog) : asLogs (logs_json ls) = Some ls.
Proof.
  unfold asLogs, logs_json. induction ls as [|l ls IH]; [reflexivity|].
  cbn [map asLogList]. rewrite asIntruderLog_json, IH. reflexivity.
Qed.

Lemma load_logs_json (ls : list IntruderLog) :
  load asLogs (Some (stringify (logs_json ls))) = Typed ls.
Proof.
  unfold load. rewrite parse_logs, asLogs_json.
  replace (truthy (Some (stringify (logs_json ls)))) with true; [reflexivity|].
  symmetry. apply truthy_Some. eexists. split; [reflexivity|]. discriminate.
Qed.

(** X1. Settings round trip: the text the component writes for any
    settings object parses, and initialization reads that very object
    back from it, whatever the e-mail text and the threshold are. *)
Theorem settings_round_trip (s : AppSettings) :
  parse (stringify (settings_json s)) = Some (settings_json s)
  /\ load asAppSettings (Some (stringify (settings_json s))) = Typed s.
Proof.
  pose proof (parse_settings s) as Hp. split; [exact Hp|].
  unfold load. rewrite Hp, asAppSettings_json.
  assert (Ht : truthy (Some (stringify (settings_json s))) = true).
  { apply truthy_Some. eexists. split; [reflexivity|]. destruct s. discriminate. }
  rewrite Ht. reflexivity.
Qed.

(** X2. Logs round trip: the text the component writes for any list of
    logs, with or without analyses, parses, and initialization reads that
    very list back from it, in the same order. *)
Theorem logs_round_trip (ls : list IntruderLog) :
  parse (stringify (logs_json ls)) = Some (logs_json ls)
  /\ load asLogs (Some (stringify (logs_json ls))) = Typed ls.
Proof.
  pose proof (parse_logs ls) as Hp. split; [exact Hp|].
  unfold load. rewrite Hp, asLogs_json.
  assert (Ht : truthy (Some (stringify (logs_json ls))) = true).
  { apply truthy_Some. eexists. split; [reflexivity|]. discriminate. }
  rewrite Ht. reflexivity.
Qed.

(** ** The store follows the state *)

Lemma store_agrees_inert (o : Op) (a : App) (st : gmap string string) :
  op_inert o = true -> store_agrees a st -> store_agrees (set o a) st.
Proof. destruct o; try discriminate; intros _ H; exact H. Qed.

Lemma run_cons (e : Effect) (es : list Effect) (w : World) :
  run (e :: es) w = run es (perform e w).
Proof. reflexivity. Qed.

Lemma run_keeps_store (es : list Effect) (w : World) :
  keeps_store es -> persistence_invariant w -> persistence_invariant (run es w).
Proof.
  intros Hes. revert w.
  induction Hes as [|o es Ho _ IH|cb ms es Hcb _ IH|l es _ IH|p es Hp _ IH|s es _ IH];
    intros w [Hs Ht].
  - split; assumption.
  - rewrite run_cons. apply IH. split; [|exact Ht].
    destruct o; try discriminate Ho; exact Hs.
  - rewrite run_cons. apply IH. split; [exact Hs|]. simpl.
    rewrite forallb_app, Ht. simpl. rewrite Hcb. reflexivity.
  - rewrite !run_cons. apply IH. split; [|exact Ht].
    destruct Hs as (H1 & H2 & H3). simpl. repeat split.
    + rewrite lookup_insert_ne by discriminate. exact H1.
    + left. rewrite lookup_insert_eq. apply load_logs_json.
    + rewrite lookup_insert_ne by discriminate. exact H3.
  - rewrite !run_cons. apply IH. split; [|exact Ht].
    destruct Hs as (H1 & H2 & H3). simpl. repeat split.
    + rewrite lookup_insert_ne by discriminate. exact H1.
    + rewrite lookup_insert_ne by discriminate. exact H2.
    + rewrite lookup_insert_eq, (truthy_image _ Hp). reflexivity.
  - rewrite !run_cons. apply IH. split; [|exact Ht].
    destruct Hs as (H1 & H2 & H3). simpl. repeat split.
    + apply lookup_insert_eq.
    + rewrite lookup_insert_ne by discriminate. exact H2.
    + rewrite lookup_insert_ne by discriminate. exact H3.
Qed.

Ltac keeps_store :=
  repeat first
    [ apply ks_nil
    | apply ks_logs
    | apply ks_settings
    | apply ks_do; [reflexivity|]
    | apply ks_timer; [reflexivity|] ].

Lemma length4_nonempty (s : string) : (String.length s =? 4)%nat = true -> s <> "".
Proof. intros H ->. discriminate H. Qed.

Lemma resume_keeps_store (c : App) (env : Env) :
  keeps_store (handlePinSubmit_resume c env).
Proof.
  unfold handlePinSubmit_resume.
  destruct (appState c); [| |constructor].
  - destruct (_ =? _)%nat eqn:Hl; [|keeps_store].
    apply ks_pin; [exact (length4_nonempty _ Hl)|]. keeps_store.
  - destruct (pin_matches c); [keeps_store|].
    destruct (_ && _); [|keeps_store].
    unfold capture_and_log, sendSecurityAlert.
    destruct (captureIntruder c env) as [img|]; [|keeps_store].
    destruct (truthy (Some img)); [|keeps_store].
    destruct (negb _); keeps_store.
Qed.

Lemma enqueue_persistence (t : Task) (w : World) :
  persistence_invariant w -> task_inert t = true -> persistence_invariant (enqueue t w).
Proof.
  intros [Hs Ht] H. split; [exact Hs|]. simpl.
  rewrite forallb_app, Ht. simpl. rewrite H. reflexivity.
Qed.

Lemma forallb_delete {A : Type} (f : A -> bool) (i : nat) (l : list A) :
  forallb f l = true -> forallb f (delete i l) = true.
Proof.
  revert i. induction l as [|x l IH]; intros i; [destruct i; auto|].
  simpl. intros H. apply andb_true_iff in H as [Hx Hl].
  destruct i; simpl; [exact Hl|]. rewrite Hx. apply IH, Hl.
Qed.

Lemma without_task_persistence (i : nat) (w : World) :
  persistence_invariant w -> persistence_invariant (without_task i w).
Proof.
  intros [Hs Ht]. split; [exact Hs|]. simpl. apply forallb_delete, Ht.
Qed.

Lemma forallb_lookup {A : Type} (f : A -> bool) (i : nat) (l : list A) (x : A) :
  forallb f l = true -> l !! i = Some x -> f x = true.
Proof.
  revert i. induction l as [|y l IH]; intros i H Hi; [destruct i; discriminate|].
  simpl in H. apply andb_true_iff in H as [Hy Hl].
  destruct i; simpl in Hi; [injection Hi as <-; exact Hy|]. exact (IH _ Hl Hi).
Qed.

Lemma keeps_store_Do (ops : list Op) :
  forallb op_inert ops = true -> keeps_store (map Do ops).
Proof.
  induction ops as [|o ops IH]; simpl; [constructor|].
  intros H. apply andb_true_iff in H as [Ho Hops].
  apply ks_do; auto.
Qed.

Lemma autoSubmit_persistence (w : World) :
  persistence_invariant w -> persistence_invariant (autoSubmit w).
Proof.
  intros Hw. unfold autoSubmit. destruct (_ =? _)%nat; [|exact Hw].
  apply enqueue_persistence; [|reflexivity].
  apply (run_keeps_store handlePinSubmit_start); [keeps_store|exact Hw].
Qed.

Lemma apply_op_persistence (o : Op) (w : World) :
  op_inert o = true -> persistence_invariant w -> persistence_invariant (apply_op o w).
Proof.
  intros Ho Hw. apply (run_keeps_store [Do o]); [|exact Hw].
  apply ks_do; [exact Ho|apply ks_nil].
Qed.

Lemma changeSettings_persistence (s : AppSettings) (w : World) :
  persistence_invariant w -> persistence_invariant (changeSettings s w).
Proof. intros Hw. apply run_keeps_store; [keeps_store|exact Hw]. Qed.

Lemma step_persistence (w w' : World) (e : Event) :
  persistence_invariant w -> step w e = Some w' -> persistence_invariant w'.
Proof.
  intros Hw. destruct e; unfold step; cbv beta iota zeta.
  - destruct (_ && _); intros [= <-]. unfold handleKeyPress.
    destruct (_ <? _)%nat; [|exact Hw].
    apply autoSubmit_persistence, apply_op_persistence; [reflexivity|exact Hw].
  - destruct (keypad_enabled _); intros [= <-]. unfold handleDelete.
    destruct (String.eqb _ _); [exact Hw|].
    apply autoSubmit_persistence, apply_op_persistence; [reflexivity|exact Hw].
  - destruct (tasks w !! i) as [[| c |]|] eqn:Ht; intros [= <-].
    apply (run_keeps_store (handlePinSubmit_resume c env));
      [apply resume_keeps_store|apply without_task_persistence, Hw].
  - destruct (tasks w !! i) as [[cb ms | |]|] eqn:Ht; intros [= <-].
    rewrite play_as_run. apply run_keeps_store; [|apply without_task_persistence, Hw].
    apply keeps_store_Do. destruct Hw as [_ Hts].
    exact (forallb_lookup task_inert _ _ _ Hts Ht).
  - destruct (is_unlocked _); intros [= <-].
    apply apply_op_persistence; [reflexivity|exact Hw].
  - destruct (is_unlocked _); intros [= <-].
    apply apply_op_persistence; [reflexivity|exact Hw].
  - destruct (_ && _); intros [= <-].
    apply apply_op_persistence; [reflexivity|exact Hw].
  - destruct (_ && _); intros [= <-]. apply changeSettings_persistence, Hw.
  - destruct (_ && _); intros [= <-]. apply changeSettings_persistence, Hw.
  - destruct (_ && _); intros [= <-]. apply changeSettings_persistence, Hw.
  - destruct (_ && _); intros [= <-].
    apply enqueue_persistence; [|reflexivity].
    apply (run_keeps_store (handleAnalyze_start log)); [keeps_store|exact Hw].
  - destruct (tasks w !! i) as [[| | c l]|] eqn:Ht; try discriminate.
    destruct (analyzeIntruderImage _ _); intros [= <-].
    + apply (run_keeps_store (handleAnalyze_resume c l a));
        [unfold handleAnalyze_resume; keeps_store|apply without_task_persistence, Hw].
    + apply without_task_persistence, Hw.
  - intros [= <-]. apply apply_op_persistence; [reflexivity|exact Hw].
Qed.

Lemma mount_persistence (storage : gmap string string) (w : World) :
  mount storage = Some w -> persistence_invariant w.
Proof.
  unfold mount, initialization.
  destruct (load asLogs (storage !! LOGS_STORAGE_KEY)) as [| |ls|v] eqn:El;
    try discriminate;
  (destruct (load asAppSettings (storage !! SETTINGS_STORAGE_KEY)) as [| |ss|v'] eqn:Es;
    try discriminate);
  (destruct (storage !! PIN_STORAGE_KEY) as [p|] eqn:Ep;
    [destruct (truthy (Some p)) eqn:Et|]);
  intros [= <-]; (split; [|reflexivity]);
  cbn [run fold_left perform apply_op set ui localStorage tasks settings logs
       storedPin saveSettings app initialApp];
  (split; [apply lookup_insert_eq|]);
  rewrite ?lookup_insert_ne by discriminate;
  rewrite ?El, ?Ep, ?Et; auto.
Qed.

Lemma reachable_persistence (storage : gmap string string) (w : World) :
  reachable storage w -> persistence_invariant w.
Proof.
  induction 1 as [w Hm|w e w' _ IH Hs].
  - exact (mount_persistence _ _ Hm).
  - exact (step_persistence _ _ _ IH Hs).
Qed.

(** X4. Restart: closing the component in any state it reaches and
    mounting it again on the store it leaves gives back the same settings,
    the same list of logs and the same passcode; the mode is Locked when
    there is a passcode and Setup otherwise, the counter of failed
    attempts starts again at 0, and the store is left as it was. *)
Theorem restart_restores (storage : gmap string string) (w : World) :
  reachable storage w ->
  exists w',
    mount (localStorage w) = Some w'
    /\ settings (ui w') = settings (ui w)
    /\ logs (ui w') = logs (ui w)
    /\ storedPin (ui w') = storedPin (ui w)
    /\ appState (ui w') = (if has_pin (ui w) then LOCKED else SETUP)
    /\ sessionFailedAttempts (ui w') = 0
    /\ inputPin (ui w') = ""
    /\ securityStatus (ui w') = IDLE
    /\ localStorage w' = localStorage w.
Proof.
  intros Hr. destruct (reachable_persistence _ _ Hr) as [(H1 & H2 & H3) _].
  unfold mount, initialization, has_pin.
  rewrite H1, load_settings_json.
  assert (Hst : <[SETTINGS_STORAGE_KEY := stringify (settings_json (settings (ui w)))]>
                  (<[SETTINGS_STORAGE_KEY := stringify (settings_json DEFAULT_SETTINGS)]>
                     (localStorage w)) = localStorage w).
  { rewrite insert_insert_eq. apply insert_id, H1. }
  destruct H2 as [H2|(Hnil & [H2|H2])]; rewrite H2;
  (destruct (localStorage w !! PIN_STORAGE_KEY) as [p|] eqn:Ep;
    [destruct (truthy (Some p)) eqn:Et|]);
  rewrite H3; (eexists; split; [reflexivity|]);
  cbn [run fold_left perform apply_op set ui localStorage tasks settings logs
       storedPin saveSettings app initialApp appState sessionFailedAttempts
       inputPin securityStatus];
  rewrite ?Hnil; repeat split; exact Hst.
Qed.

(** X3. Write-through: in every state the component reaches, also right
    after startup on a store with missing or malformed settings, the store
    holds the JSON text of the current settings. *)
Theorem settings_written_through (storage : gmap string string) (w : World) :
  reachable storage w ->
  localStorage w !! SETTINGS_STORAGE_KEY
  = Some (stringify (settings_json (settings (ui w)))).
Proof.
  intros Hr.
  assert (Hinv : persistence_invariant w).
  { induction Hr as [w Hm|w e w' _ IH Hs].
    - exact (mount_persistence _ _ Hm).
    - exact (step_persistence _ _ _ IH Hs). }
  destruct Hinv as [(Hsettings & _ & _) _]. exact Hsettings.
Qed.

Lemma settings_written_through_witness :
  reachable tuned_store (after (mounted tuned_store) slider_session)
  /\ localStorage (after (mounted tuned_store) slider_session) !! SETTINGS_STORAGE_KEY
     = Some (sq "{'alertEmail':'owner@example.com','triggerThreshold':5,'enableCapture':true}").
Proof.
  assert (Hr : reachable tuned_store (after (mounted tuned_store) slider_session)).
  { apply reachable_after, reachable_mounted. vm_compute. discriminate. }
  split; [exact Hr|].
  rewrite (settings_written_through tuned_store _ Hr). vm_compute. reflexivity.
Defined.

Lemma restart_restores_witness :
  reachable broken_store (after (mounted broken_store) wrong_pin_typed)
  /\ exists w',
       mount (localStorage (after (mounted broken_store) wrong_pin_typed)) = Some w'
       /\ settings (ui w') = DEFAULT_SETTINGS
       /\ appState (ui w') = LOCKED.
Proof.
  assert (Hr : reachable broken_store (after (mounted broken_store) wrong_pin_typed)).
  { apply reachable_after, reachable_mounted. vm_compute. discriminate. }
  split; [exact Hr|].
  destruct (restart_restores broken_store _ Hr) as (w' & Hm & Hs & _ & _ & Ha & _).
  exists w'. split; [exact Hm|]. split; [rewrite Hs; reflexivity|].
  rewrite Ha. reflexivity.
Defined.

(** ** The keypad *)

Lemma length_append (a b : string) :
  String.length (a +:+ b) = (String.length a + String.length b)%nat.
Proof. induction a as [|c a IH]; simpl; [reflexivity|]. now rewrite IH. Qed.

Lemma digits_append (a b : string) : digits (a +:+ b) = digits a && digits b.
Proof. unfold digits. rewrite chars_app. apply forallb_app. Qed.

Lemma keypad_key (key : string) :
  in_list key keypad_keys = true -> String.length key = 1%nat /\ digits key = true.
Proof.
  unfold in_list, keypad_keys. simpl existsb.
  repeat match goal with
         | |- context [String.eqb key ?s] =>
             destruct (String.eqb_spec key s) as [->|_];
             [intros _; split; reflexivity|]
         end.
  discriminate.
Qed.

Lemma chars_substring0 (n : nat) (s : string) :
  list_ascii_of_string (substring 0 n s) = firstn n (list_ascii_of_string s).
Proof.
  revert n. induction s as [|c s IH]; intros [|n]; simpl; try reflexivity.
  now rewrite IH.
Qed.

Lemma chars_length (s : string) : length (list_ascii_of_string s) = String.length s.
Proof. induction s as [|c s IH]; simpl; [reflexivity|]. now rewrite IH. Qed.

Lemma forallb_firstn {A : Type} (f : A -> bool) (n : nat) (l : list A) :
  forallb f l = true -> forallb f (firstn n l) = true.
Proof.
  revert n. induction l as [|x l IH]; intros [|n]; simpl; auto.
  intros H. apply andb_true_iff in H as [-> Hl]. simpl. auto.
Qed.

Lemma drop_last_prefix (s : string) : pin_prefix s -> pin_prefix (drop_last s).
Proof.
  intros [Hl Hd]. unfold drop_last, pin_prefix, digits.
  rewrite chars_substring0. split.
  - rewrite <- chars_length, chars_substring0, length_firstn, chars_length. lia.
  - apply forallb_firstn, Hd.
Qed.

Lemma drop_last_append (s key : string) :
  String.length key = 1%nat -> drop_last (s +:+ key) = s.
Proof.
  intros Hk. unfold drop_last. rewrite length_append, Hk.
  replace (String.length s + 1 - 1)%nat with (String.length s) by lia.
  clear Hk. induction s as [|c s IH]; simpl.
  - destruct key; reflexivity.
  - now rewrite IH.
Qed.

Lemma pin_prefix_empty : pin_prefix "".
Proof. split; [simpl; lia|reflexivity]. Qed.

Lemma apply_op_entry (storage : gmap string string) (o : Op) (w : World) :
  op_entry o = true ->
  entry_invariant storage w -> entry_invariant storage (apply_op o w).
Proof.
  intros Ho (Hi & Hp & Ht). repeat split; try exact Ht.
  - destruct o; simpl in *; try apply Hi.
    apply String.eqb_eq in Ho. subst. simpl. lia.
  - destruct o; simpl in *; try apply Hi.
    apply String.eqb_eq in Ho. subst. reflexivity.
  - destruct o; simpl in *; try exact Hp.
    apply negb_true_iff, String.eqb_neq in Ho.
    unfold pin_written_or_initial. rewrite lookup_insert_ne by exact Ho. exact Hp.
Qed.

Lemma run_keeps_entry (storage : gmap string string) (es : list Effect) (w : World) :
  keeps_entry es -> entry_invariant storage w -> entry_invariant storage (run es w).
Proof.
  intros Hes. revert w.
  induction Hes as [|o es Ho _ IH|cb ms es Hcb _ IH|p es Hp _ IH]; intros w Hw.
  - exact Hw.
  - rewrite run_cons. apply IH, apply_op_entry; assumption.
  - rewrite run_cons. apply IH. destruct Hw as (Hi & Hs & Ht).
    repeat split; try apply Hi; [exact Hs|]. simpl.
    apply Forall_app. split; [exact Ht|]. constructor; [exact Hcb|constructor].
  - rewrite run_cons. apply IH. destruct Hw as (Hi & Hs & Ht).
    repeat split; try apply Hi; [|exact Ht]. right. exists p.
    split; [apply lookup_insert_eq|exact Hp].
Qed.

Ltac keeps_entry :=
  repeat first
    [ apply ke_nil
    | apply ke_do; [reflexivity|]
    | apply ke_timer; [reflexivity|] ].

Lemma resume_keeps_entry (c : App) (env : Env) :
  pin_prefix (inputPin c) -> keeps_entry (handlePinSubmit_resume c env).
Proof.
  intros [_ Hd]. unfold handlePinSubmit_resume.
  destruct (appState c); [| |constructor].
  - destruct (_ =? _)%nat eqn:Hl; [|keeps_entry].
    apply ke_pin; [split; [apply Nat.eqb_eq, Hl|exact Hd]|]. keeps_entry.
  - destruct (pin_matches c); [keeps_entry|].
    destruct (_ && _); [|keeps_entry].
    unfold capture_and_log, sendSecurityAlert.
    destruct (captureIntruder c env) as [img|]; [|keeps_entry].
    destruct (truthy (Some img)); [|keeps_entry].
    destruct (negb _); keeps_entry.
Qed.

Lemma keeps_entry_Do (ops : list Op) :
  forallb op_entry ops = true -> keeps_entry (map Do ops).
Proof.
  induction ops as [|o ops IH]; simpl; [constructor|].
  intros H. apply andb_true_iff in H as [Ho Hops]. apply ke_do; auto.
Qed.

Lemma enqueue_entry (storage : gmap string string) (t : Task) (w : World) :
  entry_invariant storage w -> task_entry t -> entry_invariant storage (enqueue t w).
Proof.
  intros (Hi & Hs & Ht) H. repeat split; try apply Hi; [exact Hs|]. simpl.
  apply Forall_app. split; [exact Ht|]. constructor; [exact H|constructor].
Qed.

Lemma without_task_entry (storage : gmap string string) (i : nat) (w : World) :
  entry_invariant storage w -> entry_invariant storage (without_task i w).
Proof.
  intros (Hi & Hs & Ht). repeat split; try apply Hi; [exact Hs|]. simpl.
  apply Forall_delete, Ht.
Qed.

Lemma set_input_entry (storage : gmap string string) (s : string) (w : World) :
  pin_prefix s ->
  entry_invariant storage w -> entry_invariant storage (apply_op (SetInputPin s) w).
Proof.
  intros Hs (_ & Hp & Ht). split; [exact Hs|]. split; [exact Hp|exact Ht].
Qed.

Lemma autoSubmit_entry (storage : gmap string string) (w : World) :
  entry_invariant storage w -> entry_invariant storage (autoSubmit w).
Proof.
  intros Hw. unfold autoSubmit. destruct (_ =? _)%nat; [|exact Hw].
  apply enqueue_entry; [|apply Hw].
  apply (run_keeps_entry storage handlePinSubmit_start); [keeps_entry|exact Hw].
Qed.

Lemma changeSettings_entry (storage : gmap string string) (s : AppSettings) (w : World) :
  entry_invariant storage w -> entry_invariant storage (changeSettings s w).
Proof. intros Hw. apply run_keeps_entry; [keeps_entry|exact Hw]. Qed.

Lemma step_entry (storage : gmap string string) (w w' : World) (e : Event) :
  entry_invariant storage w -> step w e = Some w' -> entry_invariant storage w'.
Proof.
  intros Hw. destruct e; unfold step; cbv beta iota zeta.
  - destruct (keypad_enabled _); [|discriminate].
    destruct (in_list key keypad_keys) eqn:Hk; intros [= <-]. unfold handleKeyPress.
    destruct (_ <? _)%nat eqn:Hl; [|exact Hw].
    apply autoSubmit_entry, set_input_entry; [|exact Hw].
    apply Nat.ltb_lt in Hl. destruct (keypad_key _ Hk) as [Hk1 Hkd].
    destruct Hw as [[_ Hd] _]. split.
    + rewrite length_append, Hk1. lia.
    + rewrite digits_append, Hd, Hkd. reflexivity.
  - destruct (keypad_enabled _); intros [= <-]. unfold handleDelete.
    destruct (String.eqb _ _); [exact Hw|].
    apply autoSubmit_entry, set_input_entry; [|exact Hw].
    apply drop_last_prefix, Hw.
  - destruct (tasks w !! i) as [[| c |]|] eqn:Ht; intros [= <-].
    apply (run_keeps_entry storage (handlePinSubmit_resume c env));
      [|apply without_task_entry, Hw].
    apply resume_keeps_entry. destruct Hw as (_ & _ & Hts).
    rewrite Forall_lookup in Hts. exact (Hts _ _ Ht).
  - destruct (tasks w !! i) as [[cb ms | |]|] eqn:Ht; intros [= <-].
    rewrite play_as_run. apply run_keeps_entry; [|apply without_task_entry, Hw].
    apply keeps_entry_Do. destruct Hw as (_ & _ & Hts).
    rewrite Forall_lookup in Hts. exact (Hts _ _ Ht).
  - destruct (is_unlocked _); intros [= <-].
    apply apply_op_entry; [reflexivity|exact Hw].
  - destruct (is_unlocked _); intros [= <-].
    apply apply_op_entry; [reflexivity|exact Hw].
  - destruct (_ && _); intros [= <-].
    apply apply_op_entry; [reflexivity|exact Hw].
  - destruct (_ && _); intros [= <-]. apply changeSettings_entry, Hw.
  - destruct (_ && _); intros [= <-]. apply changeSettings_entry, Hw.
  - destruct (_ && _); intros [= <-]. apply changeSettings_entry, Hw.
  - destruct (_ && _); intros [= <-].
    apply enqueue_entry; [|exact I].
    apply (run_keeps_entry storage (handleAnalyze_start log)); [keeps_entry|exact Hw].
  - destruct (tasks w !! i) as [[| | c l]|] eqn:Ht; try discriminate.
    destruct (analyzeIntruderImage _ _); intros [= <-].
    + apply (run_keeps_entry storage (handleAnalyze_resume c l a));
        [unfold handleAnalyze_resume; keeps_entry|apply without_task_entry, Hw].
    + apply without_task_entry, Hw.
  - intros [= <-]. apply apply_op_entry; [reflexivity|exact Hw].
Qed.

Lemma mount_entry (storage : gmap string string) (w : World) :
  mount storage = Some w -> entry_invariant storage w.
Proof.
  unfold mount, initialization.
  destruct (load asLogs (storage !! LOGS_STORAGE_KEY)) as [| |ls|v];
    try discriminate;
  (destruct (load asAppSettings (storage !! SETTINGS_STORAGE_KEY)) as [| |ss|v'];
    try discriminate);
  (destruct (storage !! PIN_STORAGE_KEY) as [p|] eqn:Ep;
    [destruct (truthy (Some p))|]);
  intros [= <-]; (split; [exact pin_prefix_empty|]); (split; [|constructor]);
  left;
  cbn [run fold_left perform apply_op set ui localStorage tasks saveSettings app];
  rewrite ?lookup_insert_ne by discriminate; reflexivity.
Qed.

Lemma reachable_entry (storage : gmap string string) (w : World) :
  reachable storage w -> entry_invariant storage w.
Proof.
  induction 1 as [w Hm|w e w' _ IH Hs].
  - exact (mount_entry _ _ Hm).
  - exact (step_entry _ _ _ _ IH Hs).
Qed.

(** X5. In every state the component reaches, the input holds at most
    four characters, all of them digits. *)
Theorem input_at_most_four_digits (storage : gmap string string) (w : World) :
  reachable storage w ->
  (String.length (inputPin (ui w)) <= 4)%nat /\ digits (inputPin (ui w)) = true.
Proof.
  intros Hr.
  assert (Hinv : entry_invariant storage w).
  { induction Hr as [w Hm|w e w' _ IH Hs].
    - exact (mount_entry _ _ Hm).
    - exact (step_entry _ _ _ _ IH Hs). }
  destruct Hinv as [[Hlen Hdig] _]. split; [exact Hlen|exact Hdig].
Qed.

(** X6. On an installation whose store held no passcode, a stored
    passcode is always exactly four digits, and it is the one in the
    store. *)
Theorem created_passcode_is_four_digits (storage : gmap string string) (w : World) (p : string) :
  storage !! PIN_STORAGE_KEY = None ->
  reachable storage w ->
  storedPin (ui w) = Some p ->
  String.length p = 4%nat /\ digits p = true
  /\ localStorage w !! PIN_STORAGE_KEY = Some p.
Proof.
  intros H0 Hr Hp.
  destruct (reachable_entry _ _ Hr) as (_ & Hs & _).
  destruct (reachable_persistence _ _ Hr) as [(_ & _ & H3) _].
  rewrite Hp in H3.
  assert (Hst : localStorage w !! PIN_STORAGE_KEY = Some p).
  { destruct (truthy (localStorage w !! PIN_STORAGE_KEY)); [now symmetry|discriminate]. }
  destruct Hs as [Hs|(q & Hq & Hl & Hd)].
  - rewrite Hst, H0 in Hs. discriminate.
  - rewrite Hst in Hq. injection Hq as <-. auto.
Qed.

(** X7. A key press that the keypad accepts appends the key while the
    input has fewer than four characters; it starts a submission (status
    Checking, one more pending check, made from the render that shows the
    four characters) exactly when it is the fourth; with four characters
    already there it changes nothing. *)
Theorem fourth_key_submits (w w' : World) (key : string) :
  step w (KeyPress key) = Some w' ->
  let s := inputPin (ui w) in
  ((String.length s < 3)%nat ->
     inputPin (ui w') = s +:+ key /\ tasks w' = tasks w
     /\ securityStatus (ui w') = securityStatus (ui w))
  /\ (String.length s = 3%nat ->
     inputPin (ui w') = s +:+ key /\ securityStatus (ui w') = CHECKING
     /\ tasks w' = tasks w ++ [SubmitAwait (set (SetInputPin (s +:+ key)) (ui w))])
  /\ ((4 <= String.length s)%nat -> w' = w).
Proof.
  unfold step. destruct (keypad_enabled _); [|discriminate].
  destruct (in_list key keypad_keys) eqn:Hk; intros [= <-].
  destruct (keypad_key _ Hk) as [Hk1 _]. cbv zeta.
  set (s := inputPin (ui w)). unfold handleKeyPress, autoSubmit. fold s.
  assert (Hlen : String.length (inputPin (ui (apply_op (SetInputPin (s +:+ key)) w)))
                 = (String.length s + 1)%nat).
  { simpl. rewrite length_append, Hk1. reflexivity. }
  split; [intros Hl|split; intros Hl].
  - destruct (Nat.ltb_spec (String.length s) 4); [|lia]. rewrite Hlen.
    destruct (Nat.eqb_spec (String.length s + 1) 4); [lia|]. repeat split.
  - destruct (Nat.ltb_spec (String.length s) 4); [|lia]. rewrite Hlen.
    destruct (Nat.eqb_spec (String.length s + 1) 4); [|lia]. repeat split.
  - destruct (Nat.ltb_spec (String.length s) 4); [lia|reflexivity].
Qed.

(** X8. With fewer than three characters in the input, a key press
    followed by a delete leaves the component exactly as it was. *)
Theorem delete_undoes_key (w : World) (key : string) :
  in_list key keypad_keys = true ->
  (String.length (inputPin (ui w)) < 3)%nat ->
  handleDelete (handleKeyPress key w) = w.
Proof.
  intros Hk Hl. destruct (keypad_key _ Hk) as [Hk1 _].
  unfold handleKeyPress, autoSubmit.
  destruct (Nat.ltb_spec (String.length (inputPin (ui w))) 4); [|lia].
  cbn [ui apply_op set inputPin]. rewrite length_append, Hk1.
  destruct (Nat.eqb_spec (String.length (inputPin (ui w)) + 1) 4); [lia|].
  unfold handleDelete. cbn [ui apply_op set inputPin].
  rewrite (drop_last_append _ _ Hk1).
  destruct (String.eqb_spec (inputPin (ui w)) (inputPin (ui w) +:+ key)) as [E|_].
  { apply (f_equal String.length) in E. rewrite length_append, Hk1 in E. lia. }
  unfold autoSubmit. cbn [ui apply_op set inputPin].
  destruct (Nat.eqb_spec (String.length (inputPin (ui w))) 4); [lia|].
  destruct w as [[] st ts]. reflexivity.
Qed.

Lemma input_at_most_four_digits_witness :
  reachable armed_store (after (mounted armed_store) wrong_pin_typed)
  /\ inputPin (ui (after (mounted armed_store) wrong_pin_typed)) = "9999"
  /\ (String.length (inputPin (ui (after (mounted armed_store) wrong_pin_typed))) <= 4)%nat.
Proof.
  assert (Hr : reachable armed_store (after (mounted armed_store) wrong_pin_typed)).
  { apply reachable_after, reachable_mounted. vm_compute. discriminate. }
  split; [exact Hr|]. split; [reflexivity|].
  apply (input_at_most_four_digits armed_store _ Hr).
Defined.

Lemma created_passcode_is_four_digits_witness :
  (∅ : gmap string string) !! PIN_STORAGE_KEY = None
  /\ reachable ∅ (after (mounted ∅) setup_session)
  /\ storedPin (ui (after (mounted ∅) setup_session)) = Some "2580"
  /\ localStorage (after (mounted ∅) setup_session) !! PIN_STORAGE_KEY = Some "2580".
Proof.
  assert (Hr : reachable ∅ (after (mounted ∅) setup_session)).
  { apply reachable_after, reachable_mounted. vm_compute. discriminate. }
  assert (H0 : (∅ : gmap string string) !! PIN_STORAGE_KEY = None) by reflexivity.
  split; [exact H0|]. split; [exact Hr|]. split; [reflexivity|].
  apply (created_passcode_is_four_digits ∅ _ "2580" H0 Hr eq_refl).
Defined.

Lemma fourth_key_submits_witness :
  step (after (mounted armed_store) three_keys) (KeyPress "4")
  = Some (after (mounted armed_store) (three_keys ++ [KeyPress "4"]))
  /\ String.length (inputPin (ui (after (mounted armed_store) three_keys))) = 3%nat
  /\ securityStatus (ui (after (mounted armed_store) (three_keys ++ [KeyPress "4"])))
     = CHECKING.
Proof.
  assert (Hs : step (after (mounted armed_store) three_keys) (KeyPress "4")
               = Some (after (mounted armed_store) (three_keys ++ [KeyPress "4"])))
    by (vm_compute; reflexivity).
  split; [exact Hs|]. split; [reflexivity|].
  destruct (fourth_key_submits _ _ _ Hs) as (_ & H3 & _).
  apply (H3 eq_refl).
Defined.

Lemma delete_undoes_key_witness :
  in_list "7" keypad_keys = true
  /\ (String.length (inputPin (ui (mounted armed_store))) < 3)%nat
  /\ handleDelete (handleKeyPress "7" (mounted armed_store)) = mounted armed_store.
Proof.
  assert (Hl : (String.length (inputPin (ui (mounted armed_store))) < 3)%nat)
    by (vm_compute; lia).
  split; [reflexivity|]. split; [exact Hl|].
  exact (delete_undoes_key (mounted armed_store) "7" eq_refl Hl).
Defined.

(** ** Runs of attempts *)

Lemma pin_matches_false (c : App) (p : string) :
  storedPin c = Some p -> inputPin c <> p -> pin_matches c = false.
Proof.
  intros Hs Hne. unfold pin_matches. rewrite Hs. now apply String.eqb_neq.
Qed.

Lemma submit_frame (w : World) (env : Env) :
  settings (ui (submit w env)) = settings (ui w)
  /\ cameraActive (ui (submit w env)) = cameraActive (ui w).
Proof.
  unfold submit, handlePinSubmit, handlePinSubmit_resume.
  destruct (appState (ui w)); [| |split; reflexivity].
  - destruct (_ =? _)%nat; split; reflexivity.
  - destruct (pin_matches (ui w)); [split; reflexivity|].
    destruct (_ && _); [|split; reflexivity].
    unfold capture_and_log, sendSecurityAlert.
    destruct (captureIntruder (ui w) env) as [img|]; [|split; reflexivity].
    destruct (truthy (Some img)); [|split; reflexivity].
    destruct (negb _); split; reflexivity.
Qed.

Lemma failed_submit (w : World) (env : Env) (p : string) :
  appState (ui w) = LOCKED ->
  storedPin (ui w) = Some p ->
  inputPin (ui w) <> p ->
  let w' := submit w env in
  let n := sessionFailedAttempts (ui w) + 1 in
  appState (ui w') = LOCKED
  /\ storedPin (ui w') = Some p
  /\ sessionFailedAttempts (ui w') = n
  /\ logs (ui w') = captured (ui w) env n ++ logs (ui w).
Proof.
  intros Hm Hs Hne. cbv zeta.
  pose proof (pin_matches_false _ _ Hs Hne) as Hp.
  unfold submit, captured. rewrite (failed_attempt_effects _ env Hm Hp).
  destruct (qualifies _ _); [|repeat split; assumption].
  unfold capture_and_log, sendSecurityAlert.
  destruct (captureIntruder (ui w) env) as [img|]; [|repeat split; assumption].
  destruct (truthy (Some img)); [|repeat split; assumption].
  destruct (negb _); repeat split; assumption.
Qed.

Lemma matching_submit (w : World) (env : Env) :
  appState (ui w) = LOCKED ->
  storedPin (ui w) = Some (inputPin (ui w)) ->
  appState (ui (submit w env)) = UNLOCKED
  /\ sessionFailedAttempts (ui (submit w env)) = 0
  /\ logs (ui (submit w env)) = logs (ui w).
Proof.
  intros Hm Hp. apply pin_matches_true in Hp.
  unfold submit, handlePinSubmit, handlePinSubmit_resume. rewrite Hm, Hp.
  repeat split.
Qed.

(** X9. However many pins other than the passcode are submitted in
    Locked mode, the mode stays Locked, the passcode stays, and the
    counter goes up by their number; there is no lockout: the passcode
    submitted next unlocks, resets the counter to 0 and adds no log. *)
Theorem wrong_pins_never_unlock (w : World) (p : string) (xs : list (string * Env))
    (env : Env) :
  appState (ui w) = LOCKED ->
  storedPin (ui w) = Some p ->
  Forall (fun x => fst x <> p) xs ->
  (let w' := attempts w xs in
   appState (ui w') = LOCKED
   /\ storedPin (ui w') = Some p
   /\ sessionFailedAttempts (ui w')
      = sessionFailedAttempts (ui w) + Z.of_nat (length xs))
  /\ (let w'' := attempts w (xs ++ [(p, env)]) in
      appState (ui w'') = UNLOCKED
      /\ sessionFailedAttempts (ui w'') = 0
      /\ logs (ui w'') = logs (ui (attempts w xs))).
Proof.
  intros Hm Hs Hxs.
  assert (H1 : appState (ui (attempts w xs)) = LOCKED
               /\ storedPin (ui (attempts w xs)) = Some p
               /\ sessionFailedAttempts (ui (attempts w xs))
                  = sessionFailedAttempts (ui w) + Z.of_nat (length xs)).
  { revert w Hm Hs. induction Hxs as [|[pin e] xs Hx _ IH]; intros w Hm Hs.
    - simpl. repeat split; try assumption. lia.
    - simpl in Hx. change (attempts w ((pin, e) :: xs))
        with (attempts (attempt w (pin, e)) xs).
      destruct (failed_submit (apply_op (SetInputPin pin) w) e p Hm Hs Hx)
        as (Hm' & Hs' & Hn' & _).
      destruct (IH (attempt w (pin, e)) Hm' Hs') as (Hm2 & Hs2 & Hn2).
      repeat split; try assumption. rewrite Hn2. unfold attempt. simpl fst. simpl snd.
      rewrite Hn'. simpl length. simpl sessionFailedAttempts. lia. }
  split; [exact H1|]. destruct H1 as (Hm1 & Hs1 & _). cbv zeta.
  unfold attempts in *. rewrite fold_left_app. simpl fold_left.
  set (w1 := fold_left attempt xs w) in *.
  unfold attempt. simpl fst. simpl snd.
  destruct (matching_submit (apply_op (SetInputPin p) w1) env Hm1 Hs1)
    as (H & H' & H'').
  repeat split; assumption.
Qed.

Lemma captured_ready (a : App) (env : Env) (n : Z) :
  enableCapture (settings a) = true ->
  cameraActive a = true ->
  camera_ok env = true ->
  map attemptNumber (captured a env n)
  = if triggerThreshold (settings a) <=? n then [n] else [].
Proof.
  intros He Ha Hc. unfold camera_ok in Hc.
  apply andb_true_iff in Hc as [Hc Hd]. apply andb_true_iff in Hc as [Hc Hg].
  apply andb_true_iff in Hc as [Hv Hcv].
  unfold captured, qualifies, captureIntruder. rewrite He, Ha, Hv, Hcv, Hg.
  simpl. rewrite Hd. destruct (_ <=? _); reflexivity.
Qed.

(** X10. With capture enabled and a camera that delivers, a run of wrong
    pins leaves one log for each attempt whose number has reached the
    threshold and none for the earlier ones; the attempt numbers of the
    new logs count down from the last attempt, in front of the old
    logs. *)
Theorem logs_start_at_threshold (w : World) (p : string) (xs : list (string * Env)) :
  appState (ui w) = LOCKED ->
  storedPin (ui w) = Some p ->
  enableCapture (settings (ui w)) = true ->
  cameraActive (ui w) = true ->
  Forall (fun x => fst x <> p /\ camera_ok (snd x) = true) xs ->
  map attemptNumber (logs (ui (attempts w xs)))
  = rev (List.filter (fun n => triggerThreshold (settings (ui w)) <=? n)
           (seqZ (sessionFailedAttempts (ui w) + 1) (Z.of_nat (length xs))))
    ++ map attemptNumber (logs (ui w)).
Proof.
  intros Hm Hs He Ha Hxs. revert w Hm Hs He Ha.
  induction Hxs as [|[pin e] xs [Hx Hc] _ IH]; intros w Hm Hs He Ha; [reflexivity|].
  simpl in Hx, Hc.
  change (attempts w ((pin, e) :: xs)) with (attempts (attempt w (pin, e)) xs).
  set (w0 := apply_op (SetInputPin pin) w).
  assert (Hw1 : attempt w (pin, e) = submit w0 e) by reflexivity.
  destruct (failed_submit w0 e p Hm Hs Hx) as (Hm' & Hs' & Hn' & Hl').
  destruct (submit_frame w0 e) as [Hset Hcam].
  rewrite <- Hw1 in *. change (settings (ui w0)) with (settings (ui w)) in *.
  change (cameraActive (ui w0)) with (cameraActive (ui w)) in *.
  change (sessionFailedAttempts (ui w0)) with (sessionFailedAttempts (ui w)) in *.
  change (logs (ui w0)) with (logs (ui w)) in *.
  rewrite (IH _ Hm' Hs') by congruence.
  rewrite Hset, Hn', Hl', map_app.
  rewrite (captured_ready (ui w0) e _ He Ha Hc).
  change (settings (ui w0)) with (settings (ui w)).
  simpl length. rewrite (seqZ_cons _ (Z.of_nat (S (length xs)))) by lia.
  replace (Z.pred (Z.of_nat (S (length xs)))) with (Z.of_nat (length xs)) by lia.
  replace (Z.succ (sessionFailedAttempts (ui w) + 1))
    with (sessionFailedAttempts (ui w) + 1 + 1) by lia.
  simpl List.filter.
  destruct (triggerThreshold (settings (ui w)) <=? sessionFailedAttempts (ui w) + 1).
  - simpl rev. rewrite <- app_assoc. reflexivity.
  - reflexivity.
Qed.

Lemma submit_without_capture (w : World) (env : Env) :
  enableCapture (settings (ui w)) = false \/ cameraActive (ui w) = false ->
  logs (ui (submit w env)) = logs (ui w)
  /\ localStorage (submit w env) !! LOGS_STORAGE_KEY = localStorage w !! LOGS_STORAGE_KEY.
Proof.
  intros H. unfold submit, handlePinSubmit, handlePinSubmit_resume.
  destruct (appState (ui w)); [| |split; reflexivity].
  - destruct (_ =? _)%nat; cbn; (split; [reflexivity|]); [|reflexivity].
    apply lookup_insert_ne. discriminate.
  - destruct (pin_matches (ui w)); [split; reflexivity|].
    destruct H as [H|H].
    + rewrite H. split; reflexivity.
    + destruct (_ && _); [|split; reflexivity].
      unfold capture_and_log.
      rewrite (captureIntruder_inactive (ui w) env (or_introl H)).
      split; reflexivity.
Qed.

(** X11. With capture disabled, or with the camera not active, no
    submission in any mode adds a log or writes the stored logs. *)
Theorem no_capture_no_log (w : World) (xs : list (string * Env)) :
  enableCapture (settings (ui w)) = false \/ cameraActive (ui w) = false ->
  logs (ui (attempts w xs)) = logs (ui w)
  /\ localStorage (attempts w xs) !! LOGS_STORAGE_KEY = localStorage w !! LOGS_STORAGE_KEY.
Proof.
  revert w. induction xs as [|[pin e] xs IH]; intros w H; [split; reflexivity|].
  change (attempts w ((pin, e) :: xs)) with (attempts (attempt w (pin, e)) xs).
  set (w0 := apply_op (SetInputPin pin) w).
  assert (Hw1 : attempt w (pin, e) = submit w0 e) by reflexivity.
  destruct (submit_frame w0 e) as [Hset Hcam].
  destruct (submit_without_capture w0 e H) as [Hl Hst].
  rewrite <- Hw1 in *.
  destruct (IH (attempt w (pin, e))) as [Hl2 Hst2].
  { rewrite Hset, Hcam. exact H. }
  rewrite Hl2, Hst2, Hl, Hst. split; reflexivity.
Qed.

Lemma wrong_pins_never_unlock_witness :
  appState (ui (locked_with armed_store "")) = LOCKED
  /\ storedPin (ui (locked_with armed_store "")) = Some "1234"
  /\ Forall (fun x : string * Env => fst x <> "1234")
            [("0000", camera_ready); ("1111", camera_denied)]
  /\ sessionFailedAttempts
       (ui (attempts (locked_with armed_store "")
              [("0000", camera_ready); ("1111", camera_denied)])) = 2
  /\ appState
       (ui (attempts (locked_with armed_store "")
              ([("0000", camera_ready); ("1111", camera_denied)]
               ++ [("1234", camera_ready)]))) = UNLOCKED.
Proof.
  assert (Hxs : Forall (fun x : string * Env => fst x <> "1234")
                  [("0000", camera_ready); ("1111", camera_denied)])
    by (repeat constructor; discriminate).
  split; [reflexivity|]. split; [reflexivity|]. split; [exact Hxs|].
  destruct (wrong_pins_never_unlock (locked_with armed_store "") "1234" _ camera_ready
              eq_refl eq_refl Hxs) as ((_ & _ & Hn) & (Hu & _)).
  split; [exact Hn|exact Hu].
Defined.

Lemma logs_start_at_threshold_witness :
  appState (ui (locked_with tuned_store "")) = LOCKED
  /\ storedPin (ui (locked_with tuned_store "")) = Some "1234"
  /\ enableCapture (settings (ui (locked_with tuned_store ""))) = true
  /\ cameraActive (ui (locked_with tuned_store "")) = true
  /\ Forall (fun x : string * Env => fst x <> "1234" /\ camera_ok (snd x) = true)
            [("1111", camera_ready); ("2222", camera_ready);
             ("3333", camera_ready); ("4444", camera_ready)]
  /\ map attemptNumber
       (logs (ui (attempts (locked_with tuned_store "")
                    [("1111", camera_ready); ("2222", camera_ready);
                     ("3333", camera_ready); ("4444", camera_ready)])))
     = [4; 3].
Proof.
  assert (Hxs : Forall (fun x : string * Env => fst x <> "1234" /\ camera_ok (snd x) = true)
                  [("1111", camera_ready); ("2222", camera_ready);
                   ("3333", camera_ready); ("4444", camera_ready)])
    by (repeat constructor; discriminate).
  split; [reflexivity|]. split; [reflexivity|]. split; [reflexivity|].
  split; [reflexivity|]. split; [exact Hxs|].
  exact (logs_start_at_threshold (locked_with tuned_store "") "1234" _
           eq_refl eq_refl eq_refl eq_refl Hxs).
Defined.

Lemma no_capture_no_log_witness :
  cameraActive (ui (mounted armed_store)) = false
  /\ logs (ui (attempts (mounted armed_store)
                 [("0000", camera_ready); ("1111", camera_ready)])) = [].
Proof.
  split; [reflexivity|].
  exact (proj1 (no_capture_no_log (mounted armed_store)
                  [("0000", camera_ready); ("1111", camera_ready)]
                  (or_intror eq_refl))).
Defined.

(** ** The alert *)

(** X12. After a capture that yields an image, the alert banner shows
    the text with the configured address and is cleared by its timer; with
    no address configured the alert does nothing and the banner is left
    as it was. *)
Theorem alert_banner (w : World) (env : Env) (image : string) :
  appState (ui w) = LOCKED ->
  pin_matches (ui w) = false ->
  qualifies (settings (ui w)) (sessionFailedAttempts (ui w) + 1) = true ->
  captureIntruder (ui w) env = Some image ->
  image <> "" ->
  let email := alertEmail (settings (ui w)) in
  let shown := play (direct (handlePinSubmit (ui w) env)) w in
  (email = "" ->
     sendSecurityAlert (ui w) image (sessionFailedAttempts (ui w) + 1) = []
     /\ alertMessage (ui shown) = alertMessage (ui w)
     /\ alertMessage (ui (submit w env)) = alertMessage (ui w))
  /\ (email <> "" ->
     alertMessage (ui shown) = Some ("Alert sent to " +:+ email)
     /\ alertMessage (ui (submit w env)) = None).
Proof.
  intros Hm Hp Hq Hc Hi. cbv zeta. unfold submit.
  rewrite (failed_attempt_effects _ env Hm Hp), Hq,
    (capture_and_log_image _ _ _ _ Hc Hi).
  unfold sendSecurityAlert. split; intros He.
  - rewrite He. repeat split.
  - rewrite (truthy_image _ He). repeat split.
Qed.


Lemma alert_banner_witness :
  appState (ui (locked_with alerting_store "0000")) = LOCKED
  /\ pin_matches (ui (locked_with alerting_store "0000")) = false
  /\ qualifies (settings (ui (locked_with alerting_store "0000")))
       (sessionFailedAttempts (ui (locked_with alerting_store "0000")) + 1) = true
  /\ captureIntruder (ui (locked_with alerting_store "0000")) camera_ready
     = Some "data:image/jpeg;base64,/9j/4AAQ"
  /\ alertEmail (settings (ui (locked_with alerting_store "0000"))) <> ""
  /\ alertMessage
       (ui (play (direct (handlePinSubmit (ui (locked_with alerting_store "0000"))
                            camera_ready))
              (locked_with alerting_store "0000")))
     = Some "Alert sent to owner@example.com"
  /\ alertMessage (ui (submit (locked_with alerting_store "0000") camera_ready)) = None.
Proof.
  assert (He : alertEmail (settings (ui (locked_with alerting_store "0000"))) <> "")
    by (vm_compute; discriminate).
  split; [reflexivity|]. split; [reflexivity|]. split; [reflexivity|].
  split; [reflexivity|]. split; [exact He|].
  destruct (alert_banner (locked_with alerting_store "0000") camera_ready
              "data:image/jpeg;base64,/9j/4AAQ"
              eq_refl eq_refl eq_refl eq_refl ltac:(discriminate)) as [_ H].
  exact (H He).
Defined.

(** ** The analysis *)

Lemma substring_all (s : string) : substring 0 (String.length s) s = s.
Proof. induction s as [|c s IH]; simpl; [reflexivity|]. now rewrite IH. Qed.

Lemma prefix_append (p body : string) : String.prefix p (p +:+ body) = true.
Proof.
  induction p as [|c p IH]; simpl; [destruct body; reflexivity|].
  destruct (Ascii.ascii_dec c c); [exact IH|contradiction].
Qed.

Lemma substring_append (p body : string) :
  substring (String.length p) (String.length (p +:+ body) - String.length p) (p +:+ body)
  = body.
Proof.
  rewrite length_append.
  replace (String.length p + String.length body - String.length p)%nat
    with (String.length body) by lia.
  induction p as [|c p IH]; simpl; [apply substring_all|exact IH].
Qed.

(** X13. An image given as a data URL of type png, jpeg or jpg is sent
    to the service without that prefix: what follows the prefix is passed
    on unchanged. *)
Theorem strip_data_url_prefix (p body : string) :
  In p DATA_URL_PREFIXES -> strip_data_url (p +:+ body) = body.
Proof.
  unfold DATA_URL_PREFIXES. simpl In.
  assert (H : forall q, List.find (fun x => String.prefix x (q +:+ body)) DATA_URL_PREFIXES
                        = Some q ->
                        strip_data_url (q +:+ body) = body).
  { intros q Hq. unfold strip_data_url. rewrite Hq. apply substring_append. }
  intros [<-|[<-|[<-|[]]]]; apply H; unfold DATA_URL_PREFIXES; cbn [List.find].
  - rewrite prefix_append. reflexivity.
  - replace (String.prefix "data:image/png;base64," ("data:image/jpeg;base64," +:+ body))
      with false by reflexivity.
    rewrite prefix_append. reflexivity.
  - replace (String.prefix "data:image/png;base64," ("data:image/jpg;base64," +:+ body))
      with false by reflexivity.
    replace (String.prefix "data:image/jpeg;base64," ("data:image/jpg;base64," +:+ body))
      with false by reflexivity.
    rewrite prefix_append. reflexivity.
Qed.

Lemma analyze_nonempty (generateContent : Service) (image : string) :
  exists text,
    analyzeIntruderImage generateContent image = Returned text /\ text <> "".
Proof.
  unfold analyzeIntruderImage.
  destruct (generateContent (strip_data_url image)) as [[t|]|e]; simpl.
  - destruct (String.eqb_spec t "") as [->|Hne]; simpl; eexists;
      (split; [reflexivity|]); [discriminate|exact Hne].
  - eexists. split; [reflexivity|discriminate].
  - eexists. split; [reflexivity|discriminate].
Qed.

(** X14. The analysis is never the empty string: it is the text of the
    service's response when that text is not empty, one fixed text when
    the response has no text or an empty one, and another fixed text when
    the call fails. *)
Theorem analyze_outcome (generateContent : Service) (image : string) :
  exists text,
    analyzeIntruderImage generateContent image = Returned text
    /\ text <> ""
    /\ match generateContent (strip_data_url image) with
       | Returned (Some t) =>
           text = (if String.eqb t "" then "Analysis failed: No text returned." else t)
       | Returned None => text = "Analysis failed: No text returned."
       | Thrown _ => text = "Security analysis currently unavailable."
       end.
Proof.
  unfold analyzeIntruderImage.
  destruct (generateContent (strip_data_url image)) as [[t|]|e]; simpl.
  - destruct (String.eqb_spec t "") as [->|Hne]; simpl; eexists;
      (split; [reflexivity|]); (split; [|reflexivity]); [discriminate|exact Hne].
  - eexists. split; [reflexivity|]. split; [discriminate|reflexivity].
  - eexists. split; [reflexivity|]. split; [discriminate|reflexivity].
Qed.

(** X15. Attaching an analysis to the logs that carry a given id: a
    second attachment replaces the first, ids, images, attempt numbers and
    timestamps are as before, and a log with another id is left as it
    is. *)
Theorem attach_last_wins (log : IntruderLog) (first second : string)
    (ls : list IntruderLog) :
  map (attach log second) (map (attach log first) ls) = map (attach log second) ls
  /\ map id (map (attach log first) ls) = map id ls
  /\ map imageData (map (attach log first) ls) = map imageData ls
  /\ map attemptNumber (map (attach log first) ls) = map attemptNumber ls
  /\ map timestamp (map (attach log first) ls) = map timestamp ls
  /\ (forall l, In l ls -> id l <> id log -> In l (map (attach log first) ls)).
Proof.
  assert (Hf : forall (A : Type) (f : IntruderLog -> A),
             (forall a l, f (attach log a l) = f l) ->
             map f (map (attach log first) ls) = map f ls).
  { intros A f Hf. rewrite map_map. apply map_ext. intros l. apply Hf. }
  repeat split.
  - rewrite map_map. apply map_ext. intros l. unfold attach.
    destruct (String.eqb (id l) (id log)) eqn:E; simpl; rewrite E; reflexivity.
  - apply Hf. intros a l. unfold attach. destruct (String.eqb _ _); reflexivity.
  - apply Hf. intros a l. unfold attach. destruct (String.eqb _ _); reflexivity.
  - apply Hf. intros a l. unfold attach. destruct (String.eqb _ _); reflexivity.
  - apply Hf. intros a l. unfold attach. destruct (String.eqb _ _); reflexivity.
  - intros l Hl Hne. apply in_map_iff. exists l. split; [|exact Hl].
    unfold attach. apply String.eqb_neq in Hne. rewrite Hne. reflexivity.
Qed.

(** X16. When a pending analysis settles, it always attaches a text:
    the list of logs becomes the list the click saw with that text on
    every log of the clicked id, the store holds that list, the analyzing
    mark is cleared, and the analysis cannot be asked again for those
    logs. *)
Theorem analysis_settles (w w' : World) (i : nat) (generateContent : Service)
    (c : App) (log : IntruderLog) :
  tasks w !! i = Some (AnalyzeAwait c log) ->
  step w (AnalysisSettles i generateContent) = Some w' ->
  exists text,
    analyzeIntruderImage generateContent (imageData log) = Returned text
    /\ logs (ui w') = map (attach log text) (logs c)
    /\ logs_persisted w'
    /\ analyzingId (ui w') = None
    /\ (forall l, In l (logs (ui w')) -> id l = id log ->
        aiAnalysis l = Some text /\ step w' (AnalyzeClick l) = None).
Proof.
  intros Ht. unfold step. rewrite Ht.
  destruct (analyze_nonempty generateContent (imageData log)) as (text & Ha & Hne).
  rewrite Ha. intros [= <-]. exists text. split; [reflexivity|].
  split; [reflexivity|]. split; [apply lookup_insert_eq|]. split; [reflexivity|].
  intros l Hl Hid. cbn in Hl. apply in_map_iff in Hl as (l0 & <- & _).
  assert (Hai : aiAnalysis (attach log text l0) = Some text).
  { unfold attach in *. destruct (String.eqb_spec (id l0) (id log)); [reflexivity|].
    contradiction. }
  split; [exact Hai|].
  rewrite Hai, (truthy_image _ Hne). simpl.
  rewrite !andb_false_r. reflexivity.
Qed.

Lemma strip_data_url_prefix_witness :
  In "data:image/jpeg;base64," DATA_URL_PREFIXES
  /\ strip_data_url ("data:image/jpeg;base64," +:+ "/9j/4AAQ") = "/9j/4AAQ".
Proof.
  assert (Hin : In "data:image/jpeg;base64," DATA_URL_PREFIXES)
    by (right; left; reflexivity).
  split; [exact Hin|].
  exact (strip_data_url_prefix "data:image/jpeg;base64," "/9j/4AAQ" Hin).
Defined.

Lemma analysis_settles_witness :
  tasks (after (mounted armed_store) analysis_session) !! 0%nat
  = Some (AnalyzeAwait
            (ui (after (mounted armed_store) (removelast analysis_session)))
            first_log)
  /\ step (after (mounted armed_store) analysis_session) (AnalysisSettles 0 describes)
     = Some (after (mounted armed_store)
               (analysis_session ++ [AnalysisSettles 0 describes]))
  /\ map aiAnalysis
       (logs (ui (after (mounted armed_store)
                    (analysis_session ++ [AnalysisSettles 0 describes]))))
     = [Some "Adult, focused, indoors."].
Proof.
  assert (Ht : tasks (after (mounted armed_store) analysis_session) !! 0%nat
               = Some (AnalyzeAwait
                         (ui (after (mounted armed_store) (removelast analysis_session)))
                         first_log))
    by (vm_compute; reflexivity).
  assert (Hs : step (after (mounted armed_store) analysis_session)
                 (AnalysisSettles 0 describes)
               = Some (after (mounted armed_store)
                         (analysis_session ++ [AnalysisSettles 0 describes])))
    by (vm_compute; reflexivity).
  split; [exact Ht|]. split; [exact Hs|].
  destruct (analysis_settles _ _ _ _ _ _ Ht Hs) as (text & Ha & Hl & _).
  rewrite Hl. vm_compute in Ha. injection Ha as <-. vm_compute. reflexivity.
Defined.

(** ** The camera *)

Import Camera.

Lemma effect_turns_off (m : AppState) (c : Cam) :
  active_means_streaming c ->
  streamRef (appState_effect m c) = None
  /\ cameraActive (appState_effect m c) = false
  /\ mode (appState_effect m c) = m.
Proof.
  intros H. unfold appState_effect, stopCamera, startCamera.
  destruct (streamRef c) as [s|] eqn:Hs; simpl.
  - destruct m; simpl; repeat split.
  - rewrite Hs. destruct (cameraActive c) eqn:Ha.
    + destruct (H Ha) as [_ [s Hs']]. congruence.
    + destruct m; simpl; rewrite ?Hs; simpl; repeat split; assumption.
Qed.

Lemma cam_step_invariant (c : Cam) (e : CamEvent) :
  active_means_streaming c -> active_means_streaming (cam_step c e).
Proof.
  intros H. destruct e as [m|a]; simpl.
  - destruct (effect_turns_off m c H) as (_ & Ha & _). intros Hc. congruence.
  - destruct (0 <? pending c)%nat; [|exact H].
    destruct a as [s|]; intros Hc; simpl in *; [|discriminate].
    destruct (mode c) eqn:Hm; eauto; destruct (H Hc) as [Hm' _]; congruence.
Qed.

Lemma cam_run_invariant (es : list CamEvent) : active_means_streaming (cam_run es).
Proof.
  unfold cam_run.
  assert (H : forall c, active_means_streaming c ->
                        active_means_streaming (fold_left cam_step es c)).
  { induction es as [|e es IH]; intros c Hc; [exact Hc|].
    simpl. apply IH, cam_step_invariant, Hc. }
  apply H. intros Hc. discriminate Hc.
Qed.

(** X17. Whatever the order of mode changes and answers of the browser,
    [cameraActive] is true only in Locked mode and only while the
    component holds a stream. *)
Theorem camera_active_means_streaming (es : list CamEvent) :
  cameraActive (cam_run es) = true ->
  mode (cam_run es) = LOCKED /\ exists s, streamRef (cam_run es) = Some s.
Proof.
  unfold cam_run.
  assert (H : forall c, active_means_streaming c ->
                        active_means_streaming (fold_left cam_step es c)).
  { induction es as [|e es IH]; intros c Hc; [exact Hc|].
    simpl. apply IH, cam_step_invariant, Hc. }
  apply (H initial). intros Hc. discriminate Hc.
Qed.

Lemma camera_active_means_streaming_witness :
  cameraActive (cam_run [ModeChange LOCKED; Answer (Some 1%nat)]) = true
  /\ mode (cam_run [ModeChange LOCKED; Answer (Some 1%nat)]) = LOCKED.
Proof.
  split; [reflexivity|].
  exact (proj1 (camera_active_means_streaming
                  [ModeChange LOCKED; Answer (Some 1%nat)] eq_refl)).
Defined.

(** X18. Every change of mode first lets go of the camera: afterwards the
    component holds no stream and [cameraActive] is false, the stream it
    held is stopped, and entering Locked mode asks the browser for a new
    stream, once. *)
Theorem mode_change_releases (es : list CamEvent) (m : AppState) :
  let before := cam_run es in
  let after := cam_run (es ++ [ModeChange m]) in
  streamRef after = None
  /\ cameraActive after = false
  /\ (forall s, streamRef before = Some s -> ~ In s (running after))
  /\ pending after = (match m with LOCKED => S (pending before) | _ => pending before end).
Proof.
  cbv zeta. unfold cam_run. rewrite fold_left_app. simpl.
  fold (cam_run es). set (c := cam_run es).
  assert (Hinv : active_means_streaming c) by apply cam_run_invariant.
  clearbody c.
  destruct (effect_turns_off m c Hinv) as (Hs & Ha & _).
  split; [exact Hs|]. split; [exact Ha|]. split.
  - intros s Hc. unfold appState_effect, stopCamera, startCamera. rewrite Hc.
    destruct m; simpl; intros Hin; apply filter_In in Hin as [_ Hin];
      rewrite Nat.eqb_refl in Hin; discriminate.
  - unfold appState_effect, stopCamera, startCamera.
    destruct (streamRef c) eqn:E; destruct m; simpl; rewrite ?E; reflexivity.
Qed.

